(** * FastMCP session layer: a shallow embedding

    The definitions below follow [FastMCP.ts] (classes [FastMCPSession] and
    [FastMCP]) and [mcp-proxy]'s [startHTTPStreamServer.ts].

    Conventions of the embedding.
    - A JavaScript object that the code uses as a record or dictionary is a
      finite map from property names to values ([gmap string _]); the object
      spread [{a: x, ...r}] is the union in which the properties of [r] win.
      The map holds the own properties; where the code asks [k in o] or
      reads [o[k]] on a plain object, the members that every such object
      inherits from [Object.prototype] are found as well.
    - An asynchronous computation is described by the moment at which its
      promise settles, in milliseconds after the handler started it, and by
      the way it settles; a promise that never settles has no such moment.
      Times are those of the event loop: what happens in an earlier
      millisecond is served first, and within one millisecond the times do
      not decide the order.
    - Packages the code imports but the repository does not contain
      (the schema converter, the fuzzy matcher, the URI template parser) are
      variables of the section that models their caller. *)

From stdpp Require Import base strings gmap list pretty.
From Stdlib Require Import NArith ZArith Lia Sorted.
From Equations Require Import Equations.

Open Scope string_scope.

(** ** JavaScript values *)

#[warnings="-register-all"]
Inductive JSValue : Type :=
| VUndefined
| VNull
| VBool (b : bool)
| VNum (n : Z)
| VStr (s : string)
| VArr (l : list JSValue)
| VObj (o : gmap string JSValue).

Abbreviation JSObject := (gmap string JSValue).

(** [{...base, ...over}]: properties of [over] replace those of [base]. *)
Definition spread (base over : JSObject) : JSObject := over ∪ base.

(** The names that a plain object inherits from [Object.prototype]. *)
Definition Object_prototype : list string :=
  ["constructor"; "__defineGetter__"; "__defineSetter__"; "hasOwnProperty";
   "__lookupGetter__"; "__lookupSetter__"; "isPrototypeOf";
   "propertyIsEnumerable"; "toString"; "valueOf"; "__proto__";
   "toLocaleString"].

Definition inherited_name (k : string) : bool := bool_decide (k ∈ Object_prototype).

(** [k in o] on a plain object [o]: true of its own properties and of the
    names it inherits. *)
Definition js_in {V} (k : string) (o : gmap string V) : bool :=
  bool_decide (is_Some (o !! k)) || inherited_name k.

(** ** Errors *)

(** [ErrorCode] of the protocol SDK, as far as the session uses it. *)
Inductive ErrorCode := MethodNotFound | InvalidParams | InvalidRequest | InternalError.

(** Thrown values that convert to a string.  [UserError m] is an
    instance of the class [UserError]; [ErrorObject name m] is any other
    instance of [Error] that keeps [Error.prototype.toString], with its
    [name] and [message]; [ZodErrorObject m] is an instance of zod's
    [ZodError], whose [toString] returns its [message] alone;
    [ThrownString] is a thrown string. *)
Inductive Thrown :=
| UserError (message : string)
| ErrorObject (name message : string)
| ZodErrorObject (message : string)
| ThrownString (s : string).

(** [Error.prototype.toString]. *)
Definition Error_toString (name message : string) : string :=
  if decide (name = "") then message
  else if decide (message = "") then name
  else name ++ ": " ++ message.

(** [`${error}`] *)
Definition String_of_thrown (e : Thrown) : string :=
  match e with
  | UserError m => Error_toString "UserError" m
  | ErrorObject n m => Error_toString n m
  | ZodErrorObject m => m
  | ThrownString s => s
  end.

(** What user code (a tool, a loader) can throw: any value.
    [Printable e] is one of the above.  [Unprintable conversion] is a
    value, not an instance of [UserError], whose conversion to a string
    throws [conversion]: for a Symbol and for an object without
    prototype the engine throws a [TypeError], an object may bring a
    [toString] that throws. *)
Inductive Raised :=
| Printable (e : Thrown)
| Unprintable (conversion : Raised).
Coercion Printable : Thrown >-> Raised.

(** What a request handler can throw: the SDK turns it into an RPC error
    response.  [ZodError] is a failed parse of a zod schema and
    [TypeError] an error that the engine raises at a call; their messages
    are not modelled.  [Uncaught e] is a value thrown by user code that
    the handler lets through. *)
Inductive Fault :=
| McpError (code : ErrorCode) (message : string)
| McpErrorData (code : ErrorCode) (message : string) (data : JSObject)
| UnexpectedStateError (message : string)
| ZodError
| TypeError
| Uncaught (e : Raised).

(** ** Promises *)

Inductive Outcome (A : Type) :=
| Resolved (a : A)
| Rejected (e : Raised).
Arguments Resolved {A} a.
Arguments Rejected {A} e.

(** A promise: [Some (t, o)] settles as [o] after [t] milliseconds,
    [None] never settles. *)
Definition Promise (A : Type) : Type := option (N * Outcome A).

(** [setTimeout(callback, ms)] of Node: a delay that is not between 1
    and [TIMEOUT_MAX] is replaced by 1. *)
Definition TIMEOUT_MAX : N := 2147483647.

Definition setTimeout_delay (ms : N) : N :=
  if (1 <=? ms)%N && (ms <=? TIMEOUT_MAX)%N then ms else 1%N.

(** Whether the callback of a timer that the event loop serves at
    [fires] runs before the reaction to the settling of [p].  When both
    fall into the same millisecond the order is the event loop's, given
    as [timer_first]. *)
Definition timer_wins {A} (timer_first : bool) (fires : N) (p : Promise A) : bool :=
  match p with
  | Some (t, _) => (fires <? t)%N || ((t =? fires)%N && timer_first)
  | None => true
  end.

(** [Promise.race([p, new Promise((_, reject) => setTimeout(() =>
    reject(err), ms))])], the callback of the timer running at [fires]. *)
Definition race_timeout {A} (timer_first : bool) (fires : N) (p : Promise A)
    (err : Thrown) : Promise A :=
  if timer_wins timer_first fires p then Some (fires, Rejected err) else p.

(** [Number.MAX_SAFE_INTEGER]: up to it a number holds every integer
    exactly, and prints it in decimal notation. *)
Definition MAX_SAFE_INTEGER : N := 9007199254740991.

(** ** Tool results *)

Inductive Content :=
| TextContent (text : string)
| ImageContent (data mimeType : string)
| AudioContent (data mimeType : string).

Record ContentResult := {
  content : list Content;
  isError : option bool;
}.

(** What [execute] may return:
    [AudioContent | ContentResult | ImageContent | string | TextContent]. *)
Inductive ToolReturn :=
| RetString (s : string)
| RetContent (c : Content)
| RetResult (r : ContentResult).

(** ** Logging and progress *)

Inductive LoggingLevel :=
| alert | critical | debug | emergency | error | info | notice | warning.

Record Progress := { progress : Z; total : option Z }.

(** Calls that the tool makes on its context while it runs. *)
Inductive ContextCall :=
| log_debug (message : string) (context : JSValue)
| log_error (message : string) (context : JSValue)
| log_info (message : string) (context : JSValue)
| log_warn (message : string) (context : JSValue)
| reportProgress (p : Progress).

(** Messages that the session sends to the client besides responses. *)
Inductive Notification :=
| LoggingMessage (level : LoggingLevel) (message : string) (context : JSValue)
| ProgressNotification (p : Progress) (progressToken : JSValue).

(** ** Tools *)

(** How the call [tool.execute(args, context)] ends: it returns a
    promise, or it throws. *)
Inductive Called :=
| promised (p : Promise ToolReturn)
| threw (e : Raised).

(** A run of [tool.execute(args, context)]: the calls it makes on the
    context, each with its time; the moment at which the call ends, that
    is the end of its synchronous part; how it ends; for how long a
    timer that is due at a given moment has to wait, because the run
    keeps the event loop busy then; and, should the promise settle in the
    very millisecond in which the event loop serves a timer of the
    handler, whether the timer comes first.  Times are in milliseconds
    after the call. *)
Record Execution := {
  exec_calls : list (N * ContextCall);
  exec_returns : N;
  exec_result : Called;
  exec_lag : N → N;
  exec_timer_first : bool;
}.

(** When and how the run settles for the handler: the settling of the
    promise, or the throw at the end of the call. *)
Definition exec_settles (ex : Execution) : Promise ToolReturn :=
  match exec_result ex with
  | promised p => p
  | threw e => Some (exec_returns ex, Rejected e)
  end.

(** The result of a Standard Schema [validate]: the issues (here: their
    JSON text) or the parsed value. *)
Inductive ValidationResult :=
| Issues (json : string)
| Value (v : JSValue).

Record ToolParameters := {
  schema_id : string;
  validate : JSValue → ValidationResult;
}.

Record ToolAnnotations := {
  destructiveHint : option bool;
  idempotentHint : option bool;
  openWorldHint : option bool;
  readOnlyHint : option bool;
  title : option string;
}.

Definition FastMCPSessionAuth := JSValue.

Record Tool := {
  tool_annotations : option ToolAnnotations;
  tool_description : option string;
  tool_execute : JSValue → FastMCPSessionAuth → Execution;
  tool_name : string;
  tool_parameters : option ToolParameters;
  tool_timeoutMs : option N;
}.

(** ** Prompts *)

Record Completion := {
  hasMore : option bool;
  completion_total : option Z;
  values : list string;
}.

Definition ArgumentValueCompleter := string → Outcome Completion.

(** What a call of the [complete] closure of a prompt or a template
    comes to: the run of a completer or of the fallback, or the call of
    a member of [Object.prototype] that the dictionary of completers
    inherits, which returned a value (never a completion) or made the
    engine throw a [TypeError]. *)
Inductive Completed :=
| completed (o : Outcome Completion)
| inherited_returned
| inherited_threw.

(** [completers[name](value)] for a name that the dictionary inherits:
    the member of [Object.prototype] is called on the dictionary.
    [__proto__] is an object and no function; [__defineGetter__] and
    [__defineSetter__] want a function as their second argument.  The
    other members return an object without [values], a string, a boolean
    or [undefined]. *)
Definition call_inherited (name : string) : Completed :=
  if bool_decide (name ∈ ["__proto__"; "__defineGetter__"; "__defineSetter__"])
  then inherited_threw
  else inherited_returned.

Record InputPromptArgument := {
  arg_complete : option ArgumentValueCompleter;
  arg_description : option string;
  arg_enum : option (list string);
  arg_name : string;
  arg_required : option bool;
}.

Record InputPrompt := {
  prompt_arguments : option (list InputPromptArgument);
  prompt_description : option string;
  prompt_load : option (gmap string string) → Outcome string;
  prompt_name : string;
}.

(** A prompt as the session stores it: [{...inputPrompt, complete}]. *)
Record Prompt := {
  prompt_input : InputPrompt;
  prompt_complete : option (string → string → Completed);
}.

(** ** Resources and resource templates *)

(** What a resource loader returns: one object or an array of objects. *)
Inductive LoadResult :=
| One (result : JSObject)
| Many (results : list JSObject).

Record Resource := {
  resource_description : option string;
  resource_load : Outcome LoadResult;
  resource_mimeType : option string;
  resource_name : string;
  resource_uri : string;
}.

Record InputResourceTemplateArgument := {
  targ_complete : option ArgumentValueCompleter;
  targ_description : option string;
  targ_name : string;
}.

Record InputResourceTemplate := {
  template_arguments : list InputResourceTemplateArgument;
  template_description : option string;
  template_load : gmap string string → Outcome JSObject;
  template_mimeType : option string;
  template_name : string;
  template_uriTemplate : string;
}.

Record ResourceTemplate := {
  template_input : InputResourceTemplate;
  template_complete : option (string → string → Completed);
}.

(** ** Sessions *)

Record SessionRegistry := {
  reg_tools : list Tool;
  reg_resources : list Resource;
  reg_resourcesTemplates : list InputResourceTemplate;
  reg_prompts : list InputPrompt;
}.

Record Transport := { transport_type : option string }.

Record ClientCapabilities := {
  roots_listChanged : option bool;
  sampling : option JSValue;
}.

Record Root := { root_uri : string; root_name : option string }.

Record PingConfig := {
  ping_enabled : option bool;
  ping_intervalMs : option N;
  ping_logLevel : option LoggingLevel;
}.

(** The fields of a [FastMCPSession] that change or that [connect] reads;
    [transport] is the transport its SDK server is bound to. *)
Record FastMCPSession := {
  auth : FastMCPSessionAuth;
  clientCapabilities : option ClientCapabilities;
  loggingLevel : LoggingLevel;
  pingConfig : option PingConfig;
  pingInterval : option (N * LoggingLevel);
  roots : list Root;
  transport : option Transport;
}.


(** ** Connecting a session ([FastMCPSession.connect]) *)

(** What [connect] does besides changing the session. *)
Inductive Effect :=
| server_connect
| getClientCapabilities
| delay (ms : N)
| listRoots
| setInterval (ms : N)
| console_warn (s : string)
| console_debug (s : string)
| console_error (s : string).

Inductive ListRootsOutcome :=
| roots_listed (l : list Root)
| roots_fault (f : Fault).

(** The client and the SDK server as [connect] sees them: whether
    [server.connect] throws, what the n-th call of
    [getClientCapabilities] returns, whether the server has [listRoots],
    and how a call of it ends. *)
Record Peer := {
  peer_connect : option Thrown;
  peer_capabilities : nat → option ClientCapabilities;
  peer_has_listRoots : bool;
  peer_listRoots : ListRootsOutcome;
}.

(** [while (attempt++ < 10) { ... await delay(100); }]: the capabilities
    found, if any, and the effects in order. *)
Equations poll_capabilities (peer : Peer) (attempt : nat)
  : option ClientCapabilities * list Effect by wf (10 - attempt) lt :=
  poll_capabilities peer attempt with decide (attempt < 10) := {
    | right _ => (None, [])
    | left _ with peer_capabilities peer attempt := {
        | Some capabilities => (Some capabilities, [getClientCapabilities])
        | None =>
            let rest := poll_capabilities peer (S attempt) in
            (rest.1, getClientCapabilities :: delay 100 :: rest.2) } }.
Next Obligation. lia. Qed.

Definition is_MethodNotFound (f : Fault) : bool :=
  match f with
  | McpError MethodNotFound _ | McpErrorData MethodNotFound _ _ => true
  | _ => false
  end.

(** [#getPingConfig] *)
Definition getPingConfig (config : option PingConfig) (t : Transport)
  : bool * N * LoggingLevel :=
  let defaultEnabled :=
    match transport_type t with
    | Some ty => bool_decide (ty = "sse") || bool_decide (ty = "httpStream")
    | None => false
    end in
  (default defaultEnabled (config ≫= ping_enabled),
   match config ≫= ping_intervalMs with
   | Some ms => if decide (ms = 0%N) then 5000%N else ms
   | None => 5000%N
   end,
   default debug (config ≫= ping_logLevel)).

Inductive ConnectResult :=
| connected (s : FastMCPSession)
| connect_throws (f : Fault).

Definition with_transport (s : FastMCPSession) (t : Transport) : FastMCPSession :=
  {| auth := auth s; clientCapabilities := clientCapabilities s;
     loggingLevel := loggingLevel s; pingConfig := pingConfig s;
     pingInterval := pingInterval s; roots := roots s; transport := Some t |}.

Definition with_capabilities (s : FastMCPSession) (c : ClientCapabilities)
  : FastMCPSession :=
  {| auth := auth s; clientCapabilities := Some c;
     loggingLevel := loggingLevel s; pingConfig := pingConfig s;
     pingInterval := pingInterval s; roots := roots s; transport := transport s |}.

Definition with_roots (s : FastMCPSession) (l : list Root) : FastMCPSession :=
  {| auth := auth s; clientCapabilities := clientCapabilities s;
     loggingLevel := loggingLevel s; pingConfig := pingConfig s;
     pingInterval := pingInterval s; roots := l; transport := transport s |}.

Definition with_pingInterval (s : FastMCPSession) (i : N * LoggingLevel)
  : FastMCPSession :=
  {| auth := auth s; clientCapabilities := clientCapabilities s;
     loggingLevel := loggingLevel s; pingConfig := pingConfig s;
     pingInterval := Some i; roots := roots s; transport := transport s |}.

(** The initial roots fetch of [connect]. *)
Definition fetch_roots (peer : Peer) (s : FastMCPSession)
  : FastMCPSession * list Effect :=
  match clientCapabilities s ≫= roots_listChanged with
  | Some true =>
      if peer_has_listRoots peer then
        match peer_listRoots peer with
        | roots_listed l => (with_roots s l, [listRoots])
        | roots_fault f =>
            (s, [listRoots;
                 if is_MethodNotFound f
                 then console_debug "[FastMCP debug] listRoots method not supported by client"
                 else console_error "[FastMCP error] received error listing roots."])
        end
      else (s, [])
  | _ => (s, [])
  end.

(** The ping timer of [connect]. *)
Definition start_ping (s : FastMCPSession) (t : Transport)
  : FastMCPSession * list Effect :=
  match clientCapabilities s with
  | Some _ =>
      let '(enabled, intervalMs, logLevel) := getPingConfig (pingConfig s) t in
      if enabled
      then (with_pingInterval s (intervalMs, logLevel), [setInterval intervalMs])
      else (s, [])
  | None => (s, [])
  end.

Definition connect (peer : Peer) (s : FastMCPSession) (t : Transport)
  : ConnectResult * list Effect :=
  match transport s with
  | Some _ => (connect_throws (UnexpectedStateError "Server is already connected"), [])
  | None =>
      match peer_connect peer with
      | Some e => (connect_throws (Uncaught e), [server_connect])
      | None =>
          let s := with_transport s t in
          let polled := poll_capabilities peer 0 in
          let s := match polled.1 with
                   | Some c => with_capabilities s c
                   | None => s
                   end in
          let warned :=
            match clientCapabilities s with
            | Some _ => []
            | None => [console_warn "[FastMCP warning] could not infer client capabilities"]
            end in
          let '(s, fetched) := fetch_roots peer s in
          let '(s, pinged) := start_ping s t in
          (connected s, server_connect :: polled.2 ++ warned ++ fetched ++ pinged)
      end
  end.

(** How many times an effect list calls [getClientCapabilities]. *)
Definition is_poll (e : Effect) : bool :=
  match e with
  | getClientCapabilities => true
  | _ => false
  end.

Definition attempts (effects : list Effect) : nat :=
  length (List.filter is_poll effects).

(** ** The server ([FastMCP]) and its listener *)

(** Sessions are objects; a number stands for the identity of each. *)
Definition SessionId := nat.

Inductive FastMCPEvent :=
| connect_event (session : SessionId)
| disconnect_event (session : SessionId).

(** [#sessions] and the events emitted so far. *)
Record FastMCP := {
  sessions : list SessionId;
  emitted : list FastMCPEvent;
}.

(** The [onConnect] callback that [start] hands to the listener. *)
Definition onConnect (server : FastMCP) (session : SessionId) : FastMCP :=
  {| sessions := sessions server ++ [session];
     emitted := emitted server ++ [connect_event session] |}.

(** The [onClose] callback that [start] hands to the listener. *)
Definition onClose (server : FastMCP) (session : SessionId) : FastMCP :=
  {| sessions := sessions server;
     emitted := emitted server ++ [disconnect_event session] |}.

(** What the listener ([startHTTPStreamServer]) reports: an initialize
    request for which [createServer] returned the session or threw (the
    authenticator rejected the request), and the closing of the transport
    of a session. *)
Inductive ListenerEvent :=
| client_connects (session : SessionId)
| client_rejected (status : N)
| connection_closes (session : SessionId).

Definition listener_step (server : FastMCP) (e : ListenerEvent) : FastMCP :=
  match e with
  | client_connects session => onConnect server session
  | client_rejected _ => server
  | connection_closes session => onClose server session
  end.

Definition listener_run (server : FastMCP) (es : list ListenerEvent) : FastMCP :=
  foldl listener_step server es.

Definition new_FastMCP : FastMCP := {| sessions := []; emitted := [] |}.

(** ** JSON Schema *)

(** What a schema object with the keywords [type], [properties] and
    [additionalProperties] accepts, after the JSON Schema validation
    vocabulary; [sub] decides the subschemas under [properties]. *)
Definition schema_accepts (sub : JSValue → JSValue → bool)
    (schema instance : JSValue) : bool :=
  match schema with
  | VObj keywords =>
      let properties :=
        match keywords !! "properties" with
        | Some (VObj ps) => ps
        | _ => ∅
        end in
      match instance with
      | VObj o =>
          forallb (λ kv,
                     match properties !! kv.1 with
                     | Some subschema => sub subschema kv.2
                     | None => true
                     end) (map_to_list o)
          && match keywords !! "additionalProperties" with
             | Some (VBool false) =>
                 bool_decide ((dom o : gset string) ⊆ dom properties)
             | _ => true
             end
      | _ =>
          match keywords !! "type" with
          | Some (VStr ty) => negb (bool_decide (ty = "object"))
          | _ => true
          end
      end
  | _ => true
  end.

(** ** Stand-ins for the imported packages, used in the examples *)

(** URI templates of literal text and [{name}] placeholders. *)
Inductive Segment :=
| Lit (s : string)
| Var (name : string).

Definition is_char (c : Ascii.ascii) (s : string) : bool :=
  bool_decide (String c "" = s).

Fixpoint parse_segments (lit : string) (t : string) : list Segment :=
  match t with
  | EmptyString => if decide (lit = "") then [] else [Lit lit]
  | String c t =>
      if is_char c "{"
      then (if decide (lit = "") then [] else [Lit lit]) ++ parse_var "" t
      else parse_segments (lit ++ String c "") t
  end
with parse_var (name : string) (t : string) : list Segment :=
  match t with
  | EmptyString => [Var name]
  | String c t =>
      if is_char c "}"
      then Var name :: parse_segments "" t
      else parse_var (name ++ String c "") t
  end.

Definition strip_prefix (p s : string) : option string :=
  if String.prefix p s
  then Some (String.substring (String.length p) (String.length s - String.length p) s)
  else None.

(** A placeholder takes the shortest non-empty text after which the rest
    of the template matches. *)
Fixpoint match_segments (segs : list Segment) (u : string)
  : option (gmap string string) :=
  match segs with
  | [] => if decide (u = "") then Some ∅ else None
  | Lit s :: rest =>
      match strip_prefix s u with
      | Some u => match_segments rest u
      | None => None
      end
  | Var x :: rest =>
      (fix bind (taken u : string) {struct u} : option (gmap string string) :=
         let here :=
           if decide (taken = "") then None
           else <[x := taken]> <$> match_segments rest u in
         match here, u with
         | Some m, _ => Some m
         | None, EmptyString => None
         | None, String c u => bind (taken ++ String c "") u
         end) "" u
  end.

Definition simple_fromUri (template uri : string) : option (gmap string string) :=
  match_segments (parse_segments "" template) uri.

Definition simple_fill (template : string) (vs : gmap string string) : string :=
  foldr (λ seg acc,
           match seg with
           | Lit s => s ++ acc
           | Var x => default "" (vs !! x) ++ acc
           end) "" (parse_segments "" template).

(** Matching by containment, in the order of the list. *)
Definition substring_search (l : list string) (value : string) : list string :=
  filter (λ item, is_Some (String.index 0 value item)) l.

(** ** The tool handlers of a session ([setupToolHandlers]) *)

(** A request handler returns a value or throws. *)
Inductive Reply (A : Type) :=
| Returns (a : A)
| Throws (f : Fault).
Arguments Returns {A} a.
Arguments Throws {A} f.

Record CallToolRequest := {
  req_name : string;
  req_arguments : JSValue;
  req_progressToken : JSValue;
}.

(** What handling one call-tool request does: the call of [execute] (tool
    name, arguments, session), the delay of the timer it sets, the
    notifications it sends with their times, and the response, which is a
    result or an RPC error; [None] when the handler never answers. *)
Record CallToolRun := {
  run_invoked : option (string * JSValue * FastMCPSessionAuth);
  run_timer : option N;
  run_notifications : list (N * Notification);
  run_response : option (N * Reply ContentResult);
}.

Definition find_tool (tools : list Tool) (name : string) : option Tool :=
  find (λ tool, bool_decide (tool_name tool = name)) tools.

(** The [log] and [reportProgress] closures of the context. *)
Definition notify (progressToken : JSValue) (c : ContextCall) : Notification :=
  match c with
  | log_debug m ctx => LoggingMessage debug m ctx
  | log_error m ctx => LoggingMessage error m ctx
  | log_info m ctx => LoggingMessage info m ctx
  | log_warn m ctx => LoggingMessage warning m ctx
  | reportProgress p => ProgressNotification p progressToken
  end.

(** [`Tool execution timed out after ${tool.timeoutMs}ms`], for a
    [timeoutMs] up to [MAX_SAFE_INTEGER]. *)
Definition timeout_message (ms : N) : string :=
  "Tool execution timed out after " ++ pretty ms ++ "ms".

(** [tool.timeoutMs ? Promise.race([...]) : executeToolPromise]: zero is
    falsy, like an absent [timeoutMs]. *)
Definition truthy_timeout (timeoutMs : option N) : option N :=
  match timeoutMs with
  | Some ms => if decide (ms = 0%N) then None else Some ms
  | None => None
  end.

(** When the timer set with [setTimeout(..., ms)] is due: it is set
    once the call of [execute] has returned its promise. *)
Definition timer_due (ex : Execution) (ms : N) : N :=
  (exec_returns ex + setTimeout_delay ms)%N.

(** When the callback of that timer runs: when it is due, or later if
    the run keeps the event loop busy. *)
Definition timer_fires (ex : Execution) (ms : N) : N :=
  (timer_due ex ms + exec_lag ex (timer_due ex ms))%N.

(** The [await]: the handler goes on when the awaited promise has
    settled, and not before the call of [execute] has returned.  A call
    that throws leaves the [try] at once; no timer can come before. *)
Definition await_execution (timeoutMs : option N) (ex : Execution)
  : Promise ToolReturn :=
  (λ s, (N.max (exec_returns ex) s.1, s.2)) <$>
    match truthy_timeout timeoutMs with
    | Some ms =>
        race_timeout (exec_timer_first ex) (timer_fires ex ms) (exec_settles ex)
          (UserError (timeout_message ms))
    | None => exec_settles ex
    end.

(** The three branches on [maybeStringResult], before the schema parse. *)
Definition normalize (r : ToolReturn) : ContentResult :=
  match r with
  | RetString s => {| content := [TextContent s]; isError := None |}
  | RetContent c => {| content := [c]; isError := None |}
  | RetResult r => r
  end.

(** The [catch] block of the handler.  Nothing surrounds
    [`Error: ${error}`]: when the conversion of the value throws, the
    handler throws that. *)
Definition error_result (e : Raised) : Reply ContentResult :=
  match e with
  | Printable (UserError m) =>
      Returns {| content := [TextContent m]; isError := Some true |}
  | Printable e =>
      Returns {| content := [TextContent ("Error: " ++ String_of_thrown e)];
                 isError := Some true |}
  | Unprintable conversion => Throws (Uncaught conversion)
  end.

(** ** Inherited fields of a content entry *)

(** [entry] has every property of the loader's [result] and, where
    [result] has none of that name, the [name], [uri] and [mimeType] of the
    resource; it has no other property. *)
Definition inherits (mimeType : option string) (name uri : string)
    (result entry : JSObject) : Prop :=
  (∀ k v, result !! k = Some v → entry !! k = Some v)
  ∧ (result !! "name" = None → entry !! "name" = Some (VStr name))
  ∧ (result !! "uri" = None → entry !! "uri" = Some (VStr uri))
  ∧ (result !! "mimeType" = None →
     entry !! "mimeType" = Some match mimeType with
                                | Some m => VStr m
                                | None => VUndefined
                                end)
  ∧ dom entry = dom result ∪ ({["name"]} ∪ {["uri"]} ∪ {["mimeType"]} : gset string).

(** ** Example registrations *)

Definition no_annotations_tool (name : string) (timeoutMs : option N)
    (execute : JSValue → FastMCPSessionAuth → Execution) : Tool :=
  {| tool_annotations := None; tool_description := None;
     tool_execute := execute; tool_name := name;
     tool_parameters := None; tool_timeoutMs := timeoutMs |}.

(** A tool with a one second timeout that throws after three seconds. *)
Definition late_tool : Tool :=
  no_annotations_tool "late" (Some 1000%N)
    (λ _ _, {| exec_calls := [(2000%N, log_info "still running" VUndefined)];
               exec_returns := 0;
               exec_result := promised (Some (3000%N, Rejected (UserError "late")));
               exec_lag := λ _, 0%N;
               exec_timer_first := false |}).

(** A tool that declares [timeoutMs: 0] and answers after three seconds. *)
Definition zero_timeout_tool : Tool :=
  no_annotations_tool "slow" (Some 0%N)
    (λ _ _, {| exec_calls := []; exec_returns := 0;
               exec_result := promised (Some (3000%N, Resolved (RetString "3")));
               exec_lag := λ _, 0%N;
               exec_timer_first := false |}).

(** A tool whose [timeoutMs] exceeds [TIMEOUT_MAX] and that answers
    after half a second. *)
Definition patient_tool : Tool :=
  no_annotations_tool "patient" (Some 3000000000%N)
    (λ _ _, {| exec_calls := []; exec_returns := 0;
               exec_result := promised (Some (500%N, Resolved (RetString "done")));
               exec_lag := λ _, 0%N;
               exec_timer_first := false |}).

(** A tool with a one second timeout that waits ten milliseconds and
    then computes for two seconds without a pause: its timer, due after
    one second, is served when the computation ends, after the promise
    has settled. *)
Definition busy_tool : Tool :=
  no_annotations_tool "busy" (Some 1000%N)
    (λ _ _, {| exec_calls := []; exec_returns := 0;
               exec_result :=
                 promised (Some (2010%N, Resolved (RetString "computed")));
               exec_lag := λ due, (2010 - due)%N;
               exec_timer_first := false |}).

(** A tool that throws at once. *)
Definition failing_tool (e : Raised) : Tool :=
  no_annotations_tool "fail" None
    (λ _ _, {| exec_calls := []; exec_returns := 0;
               exec_result := promised (Some (0%N, Rejected e));
               exec_lag := λ _, 0%N;
               exec_timer_first := false |}).

(** A tool without parameters that reports the arguments it was given. *)
Definition echo_tool : Tool :=
  no_annotations_tool "echo" None
    (λ args _, {| exec_calls := []; exec_returns := 0;
                  exec_result :=
                    promised
                      (Some (0%N, Resolved (RetString
                                    match args with
                                    | VUndefined => "undefined"
                                    | _ => "defined"
                                    end)));
                  exec_lag := λ _, 0%N;
                  exec_timer_first := false |}).

Definition call (name : string) (arguments : JSValue) : CallToolRequest :=
  {| req_name := name; req_arguments := arguments; req_progressToken := VUndefined |}.

Definition fresh_session : FastMCPSession :=
  {| auth := VUndefined; clientCapabilities := None; loggingLevel := info;
     pingConfig := None; pingInterval := None; roots := []; transport := None |}.

Definition tools_only (tools : list Tool) : SessionRegistry :=
  {| reg_tools := tools; reg_resources := []; reg_resourcesTemplates := [];
     reg_prompts := [] |}.

(** The prompt of the example server: one required argument, which
    declares neither a completer nor an enumeration. *)
Definition git_commit_prompt : InputPrompt :=
  {| prompt_arguments :=
       Some [{| arg_complete := None;
                arg_description := Some "Git diff or description of changes";
                arg_enum := None; arg_name := "changes";
                arg_required := Some true |}];
     prompt_description := Some "Generate a Git commit message";
     prompt_load := λ args,
       Resolved ("Generate a concise but descriptive commit message for these changes: "
                 ++ default "undefined" (args ≫= (λ a, a !! "changes")));
     prompt_name := "git-commit" |}.


(** A prompt whose required argument bears a name that every object
    inherits. *)
Definition constructor_prompt : InputPrompt :=
  {| prompt_arguments :=
       Some [{| arg_complete := None; arg_description := None;
                arg_enum := None; arg_name := "constructor";
                arg_required := Some true |}];
     prompt_description := None;
     prompt_load := λ _, Resolved "Describe the build";
     prompt_name := "build" |}.

Definition prompts_only (prompts : list InputPrompt) : SessionRegistry :=
  {| reg_tools := []; reg_resources := []; reg_resourcesTemplates := [];
     reg_prompts := prompts |}.

(** A resource whose loader returns two objects. *)
Definition two_texts : Resource :=
  {| resource_description := None;
     resource_load :=
       Resolved (Many [{["text" := VStr "a"]}; {["text" := VStr "b"]}]);
     resource_mimeType := Some "text/plain";
     resource_name := "Two texts";
     resource_uri := "file:///x" |}.

(** A template for log files. *)
Definition logs_template : InputResourceTemplate :=
  {| template_arguments :=
       [{| targ_complete := None; targ_description := Some "Name of the log";
           targ_name := "name" |}];
     template_description := None;
     template_load := λ args,
       Resolved {["text" := VStr ("Example log content for "
                                  ++ default "undefined" (args !! "name"))]};
     template_mimeType := Some "text/plain";
     template_name := "Application Logs";
     template_uriTemplate := "file:///logs/{name}.log" |}.



Definition logs_registry : SessionRegistry :=
  {| reg_tools := []; reg_resources := [two_texts];
     reg_resourcesTemplates := [logs_template]; reg_prompts := [] |}.

(** Every result conforms to the content schema; a converter that is
    never called. *)
Definition conforms : ContentResult → option string := λ _, None.
Definition no_converter : ToolParameters → JSValue := λ _, VNull.

Definition silent_peer : Peer :=
  {| peer_connect := None; peer_capabilities := λ _, None;
     peer_has_listRoots := true; peer_listRoots := roots_listed [] |}.

(** ** The in-memory event store ([InMemoryEventStore.ts] of mcp-proxy) *)

Record StoredEvent := {
  event_message : JSValue;
  event_streamId : string;
}.

(** A [Map] with string keys: its entries in the order of insertion, no
    key twice. *)
Definition EventMap := list (string * StoredEvent).

Definition Map_get (k : string) (m : EventMap) : option StoredEvent :=
  snd <$> find (λ entry, bool_decide (entry.1 = k)) m.

Definition Map_has (k : string) (m : EventMap) : bool :=
  bool_decide (is_Some (Map_get k m)).

(** [Map.prototype.set]: a key that is present keeps its place. *)
Fixpoint Map_set (k : string) (v : StoredEvent) (m : EventMap) : EventMap :=
  match m with
  | [] => [(k, v)]
  | entry :: m =>
      if decide (entry.1 = k) then (k, v) :: m else entry :: Map_set k v m
  end.

(** [generateEventId]: [now] is [Date.now()] and [random] the eight
    characters taken from [Math.random().toString(36)]. *)
Definition generateEventId (streamId : string) (now : N) (random : string) : string :=
  streamId ++ "_" ++ pretty now ++ "_" ++ random.

Definition storeEvent (events : EventMap) (streamId : string) (message : JSValue)
    (now : N) (random : string) : string * EventMap :=
  let eventId := generateEventId streamId now random in
  (eventId, Map_set eventId {| event_message := message; event_streamId := streamId |}
              events).

(** [getStreamIdFromEventId]: [eventId.split("_")[0]], the text before the
    first underscore. *)
Fixpoint getStreamIdFromEventId (eventId : string) : string :=
  match eventId with
  | EmptyString => EmptyString
  | String c rest =>
      if is_char c "_" then EmptyString
      else String c (getStreamIdFromEventId rest)
  end.

(** [Array.prototype.sort] with the comparator
    [(a, b) => compare(a[0], b[0])]: a stable sort, here by insertion. *)
Fixpoint sort_insert (compare : string → string → Z) (x : string * StoredEvent)
    (sorted : EventMap) : EventMap :=
  match sorted with
  | [] => [x]
  | y :: rest =>
      if (0 <? compare x.1 y.1)%Z then y :: sort_insert compare x rest
      else x :: sorted
  end.

Definition Array_sort (compare : string → string → Z) (entries : EventMap) : EventMap :=
  foldr (sort_insert compare) [] entries.

(** The [for] loop of [replayEventsAfter]: the events it sends. *)
Fixpoint replay_loop (streamId lastEventId : string) (foundLastEvent : bool)
    (sortedEvents : EventMap) : list (string * JSValue) :=
  match sortedEvents with
  | [] => []
  | (eventId, event) :: rest =>
      if negb (bool_decide (event_streamId event = streamId))
      then replay_loop streamId lastEventId foundLastEvent rest
      else if bool_decide (eventId = lastEventId)
      then replay_loop streamId lastEventId true rest
      else if foundLastEvent
      then (eventId, event_message event)
             :: replay_loop streamId lastEventId foundLastEvent rest
      else replay_loop streamId lastEventId foundLastEvent rest
  end.

(** [replayEventsAfter]: the stream id returned and the events handed to
    [send], in order; [localeCompare] is [String.prototype.localeCompare].
    [send] is taken to succeed. *)
Definition replayEventsAfter (localeCompare : string → string → Z)
    (events : EventMap) (lastEventId : string) : string * list (string * JSValue) :=
  if bool_decide (lastEventId = "") || negb (Map_has lastEventId events)
  then ("", [])
  else
    let streamId := getStreamIdFromEventId lastEventId in
    if bool_decide (streamId = "") then ("", [])
    else (streamId,
          replay_loop streamId lastEventId false (Array_sort localeCompare events)).

(** The keys of a store are distinct; every store built by [storeEvent]
    is so. *)
Definition well_keyed (events : EventMap) : Prop := NoDup events.*1.

(** Stores built from the empty one by [storeEvent]. *)
Fixpoint store_all (events : EventMap)
    (calls : list (string * JSValue * N * string)) : EventMap :=
  match calls with
  | [] => events
  | (streamId, message, now, random) :: calls =>
      store_all (storeEvent events streamId message now random).2 calls
  end.

(** A comparator that orders the strings strictly. *)
Definition strict_order (compare : string → string → Z) : Prop :=
  (∀ a, compare a a = 0%Z)
  ∧ (∀ a b, compare a b = 0%Z → a = b)
  ∧ (∀ a b, (0 < compare a b)%Z ↔ (compare b a < 0)%Z)
  ∧ (∀ a b c, (compare a b < 0)%Z → (compare b c < 0)%Z → (compare a c < 0)%Z).

(** Comparing strings as the lists of their character codes. *)
Fixpoint code_compare (a b : string) : Z :=
  match a, b with
  | EmptyString, EmptyString => 0
  | EmptyString, String _ _ => -1
  | String _ _, EmptyString => 1
  | String x a, String y b =>
      match (Ascii.nat_of_ascii x ?= Ascii.nat_of_ascii y)%nat with
      | Lt => -1
      | Gt => 1
      | Eq => code_compare a b
      end
  end.

(** The string has no underscore. *)
Definition underscore_free (s : string) : Prop :=
  ∀ c, c ∈ String.list_ascii_of_string s → is_char c "_" = false.

(** ** The grading backend ([routes/mapel.js], [routes/siswa.js]) *)

(** A subject or a student: [{ id, nama }]. *)
Record Row := {
  row_id : Z;
  row_nama : JSValue;
}.

(** The module state of a router: the array and [idCounter]. *)
Record Table := {
  rows : list Row;
  idCounter : Z;
}.

Definition empty_table : Table := {| rows := []; idCounter := 1 |}.

Inductive Body :=
| json_rows (l : list Row)
| json_row (r : Row)
| json_message (message : string)
| no_body.

Record HttpResponse := {
  status : N;
  body : Body;
}.

(** The five routes: [GET /], [POST /], [GET /:id], [PUT /:id],
    [DELETE /:id], with the path parameter and the parsed JSON body. *)
Inductive RouteRequest :=
| route_list
| route_create (body : JSObject)
| route_read (id : string)
| route_update (id : string) (body : JSObject)
| route_delete (id : string).

(** [req.body.nama]: [undefined] when the body has no such property. *)
Definition body_nama (body : JSObject) : JSValue := default VUndefined (body !! "nama").

(** [rows.findIndex(r => r.id === n)] and the two things done at the
    index found. *)
Fixpoint set_nama_at (n : Z) (nama : JSValue) (l : list Row) : list Row :=
  match l with
  | [] => []
  | r :: l =>
      if decide (row_id r = n)
      then {| row_id := row_id r; row_nama := nama |} :: l
      else r :: set_nama_at n nama l
  end.

Fixpoint splice_at (n : Z) (l : list Row) : list Row :=
  match l with
  | [] => []
  | r :: l => if decide (row_id r = n) then l else r :: splice_at n l
  end.

Definition find_row (n : option Z) (l : list Row) : option Row :=
  match n with
  | Some n => find (λ r, bool_decide (row_id r = n)) l
  | None => None
  end.

(** A router.  [parseInt] is the built-in applied to the path parameter,
    [None] standing for [NaN], which equals no id; [not_found] is the
    message of the router. *)
Definition route (parseInt : string → option Z) (not_found : string)
    (t : Table) (r : RouteRequest) : Table * HttpResponse :=
  match r with
  | route_list => (t, {| status := 200; body := json_rows (rows t) |})
  | route_create b =>
      let new := {| row_id := idCounter t; row_nama := body_nama b |} in
      ({| rows := rows t ++ [new]; idCounter := idCounter t + 1 |},
       {| status := 201; body := json_row new |})
  | route_read id =>
      match find_row (parseInt id) (rows t) with
      | Some found => (t, {| status := 200; body := json_row found |})
      | None => (t, {| status := 404; body := json_message not_found |})
      end
  | route_update id b =>
      match parseInt id, find_row (parseInt id) (rows t) with
      | Some n, Some found =>
          ({| rows := set_nama_at n (body_nama b) (rows t); idCounter := idCounter t |},
           {| status := 200;
              body := json_row {| row_id := row_id found; row_nama := body_nama b |} |})
      | _, _ => (t, {| status := 404; body := json_message not_found |})
      end
  | route_delete id =>
      match parseInt id, find_row (parseInt id) (rows t) with
      | Some n, Some _ =>
          ({| rows := splice_at n (rows t); idCounter := idCounter t |},
           {| status := 204; body := no_body |})
      | _, _ => (t, {| status := 404; body := json_message not_found |})
      end
  end.

(** The router after a sequence of requests, from its initial state. *)
Definition route_all (parseInt : string → option Z) (not_found : string)
    (requests : list RouteRequest) : Table :=
  foldl (λ t r, (route parseInt not_found t r).1) empty_table requests.

Definition is_create (r : RouteRequest) : bool :=
  match r with route_create _ => true | _ => false end.

(** A decimal reader for the examples: digits only. *)
Definition digits_only (s : string) : option Z :=
  match s with
  | "1" => Some 1 | "2" => Some 2 | "3" => Some 3 | "4" => Some 4
  | _ => None
  end%Z.

(** ** Further example registrations *)

(** The schema of the [add] tool of the tests: an object with the numbers
    [a] and [b]. *)
Definition numbers_schema : ToolParameters :=
  {| schema_id := "z.object({ a: z.number(), b: z.number() })";
     validate := λ v,
       match v with
       | VObj o =>
           match o !! "a", o !! "b" with
           | Some (VNum _), Some (VNum _) => Value v
           | _, _ => Issues "[invalid_type]"
           end
       | _ => Issues "[invalid_type]"
       end |}.

Definition add_tool : Tool :=
  {| tool_annotations := None; tool_description := Some "Add two numbers";
     tool_execute := λ args _,
       {| exec_calls := []; exec_returns := 0;
          exec_result :=
            promised
              (Some (0%N,
                     match args with
                     | VObj o =>
                         match o !! "a", o !! "b" with
                         | Some (VNum a), Some (VNum b) =>
                             Resolved (RetString (pretty (a + b)%Z))
                         | _, _ => Rejected (ErrorObject "TypeError" "not a number")
                         end
                     | _ => Rejected (ErrorObject "TypeError" "not an object")
                     end));
          exec_lag := λ _, 0%N;
          exec_timer_first := false |};
     tool_name := "add"; tool_parameters := Some numbers_schema;
     tool_timeoutMs := None |}.

(** A tool that reports progress twice and logs in between. *)
Definition progress_tool : Tool :=
  no_annotations_tool "progress" None
    (λ _ _, {| exec_calls :=
                 [(0%N, reportProgress {| progress := 0; total := Some 10%Z |});
                  (5%N, log_info "half way" VUndefined);
                  (10%N, reportProgress {| progress := 10; total := Some 10%Z |})];
               exec_returns := 0;
               exec_result := promised (Some (10%N, Resolved (RetString "done")));
               exec_lag := λ _, 0%N;
               exec_timer_first := false |}).

(** The prompt of the completion test: its argument has a completer. *)
Definition country_completer : ArgumentValueCompleter :=
  λ value,
    Resolved {| hasMore := None; completion_total := None;
                values := if decide (value = "Germ") then ["Germany"] else [] |}.

Definition country_argument : InputPromptArgument :=
  {| arg_complete := Some country_completer;
     arg_description := Some "Name of the country";
     arg_enum := Some ["Germany"; "France"; "Italy"];
     arg_name := "name"; arg_required := Some true |}.

Definition completed_prompt : InputPrompt :=
  {| prompt_arguments := Some [country_argument];
     prompt_description := Some "Writes a poem about a country";
     prompt_load := λ args,
       Resolved ("Hello, " ++ default "undefined" (args ≫= (λ a, a !! "name")) ++ "!");
     prompt_name := "countryPoem" |}.



Definition changes_argument : InputPromptArgument :=
  {| arg_complete := None;
     arg_description := Some "Git diff or description of changes";
     arg_enum := None; arg_name := "changes"; arg_required := Some true |}.

Definition roots_capabilities : ClientCapabilities :=
  {| roots_listChanged := Some true; sampling := None |}.

(** A client whose capabilities are known at the third attempt and that
    does not implement [roots/list]. *)
Definition slow_peer : Peer :=
  {| peer_connect := None;
     peer_capabilities := λ n, if decide (n < 2) then None else Some roots_capabilities;
     peer_has_listRoots := true;
     peer_listRoots := roots_fault (McpError MethodNotFound "Method not found") |}.

(** A client whose capabilities are known at once. *)
Definition ready_peer : Peer :=
  {| peer_connect := None;
     peer_capabilities := λ _, Some roots_capabilities;
     peer_has_listRoots := true;
     peer_listRoots := roots_listed [{| root_uri := "file:///home"; root_name := None |}] |}.

Definition sse_transport : Transport := {| transport_type := Some "sse" |}.

(** Two events of stream [s] and one of stream [a_b]. *)
Definition three_events : EventMap :=
  store_all [] [("s", VStr "first", 1%N, "aaaaaaaa");
                ("s", VStr "second", 2%N, "bbbbbbbb");
                ("a_b", VStr "other", 3%N, "cccccccc")].

(** ** The grading backend ([routes/penilaian.js]) *)

(** A grade is an object [{ id, siswaId, mapelId, nilai }] that [PUT]
    rebuilds with a spread, so its rows are kept as objects. *)
Record GradeTable := {
  penilaian : list JSObject;
  grade_idCounter : Z;
}.

Inductive GradeBody :=
| grades (l : list JSObject)
| grade (g : JSObject)
| grade_message (message : string)
| grade_none.

Definition property (o : JSObject) (k : string) : JSValue :=
  default VUndefined (o !! k).

(** [p.id === n] *)
Definition has_id (n : option Z) (p : JSObject) : bool :=
  match n, p !! "id" with
  | Some n, Some (VNum i) => bool_decide (i = n)
  | _, _ => false
  end.

(** [penilaian.findIndex(p => p.id === n)] *)
Fixpoint findIndex (n : option Z) (l : list JSObject) : option nat :=
  match l with
  | [] => None
  | p :: l => if has_id n p then Some 0 else S <$> findIndex n l
  end.

Definition grade_route (parseInt : string → option Z) (t : GradeTable)
    (r : RouteRequest) : GradeTable * (N * GradeBody) :=
  match r with
  | route_list => (t, (200%N, grades (penilaian t)))
  | route_create b =>
      let new : JSObject :=
        <["id" := VNum (grade_idCounter t)]>
          (<["siswaId" := property b "siswaId"]>
             (<["mapelId" := property b "mapelId"]>
                (<["nilai" := property b "nilai"]> ∅))) in
      ({| penilaian := penilaian t ++ [new];
          grade_idCounter := grade_idCounter t + 1 |},
       (201%N, grade new))
  | route_read id =>
      match find (has_id (parseInt id)) (penilaian t) with
      | Some found => (t, (200%N, grade found))
      | None => (t, (404%N, grade_message "Penilaian tidak ditemukan"))
      end
  | route_update id b =>
      match findIndex (parseInt id) (penilaian t) with
      | Some idx =>
          let updated := spread (default ∅ (penilaian t !! idx)) b in
          ({| penilaian := <[idx := updated]> (penilaian t);
              grade_idCounter := grade_idCounter t |},
           (200%N, grade updated))
      | None => (t, (404%N, grade_message "Penilaian tidak ditemukan"))
      end
  | route_delete id =>
      match findIndex (parseInt id) (penilaian t) with
      | Some idx =>
          ({| penilaian := take idx (penilaian t) ++ drop (S idx) (penilaian t);
              grade_idCounter := grade_idCounter t |},
           (204%N, grade_none))
      | None => (t, (404%N, grade_message "Penilaian tidak ditemukan"))
      end
  end.

Section Session.
(** [ContentResultZodSchema.parse]: [None] when the value conforms (the
    parse returns it), otherwise the [message] of the [ZodError] thrown,
    which is the JSON text of its issues. *)
Variable ContentResultZodSchema_issues : ContentResult → option string.
(** [toJsonSchema] of the package [xsschema]. *)
Variable toJsonSchema : ToolParameters → JSValue.

Definition ContentResultZodSchema_parse (r : ContentResult) : Outcome ContentResult :=
  match ContentResultZodSchema_issues r with
  | None => Resolved r
  | Some m => Rejected (ZodErrorObject m)
  end.

(** The body of the [try] once the awaited promise has settled, and the
    [catch] block. *)
Definition settle (o : Outcome ToolReturn) : Reply ContentResult :=
  match o with
  | Resolved r =>
      match ContentResultZodSchema_parse (normalize r) with
      | Resolved result => Returns result
      | Rejected e => error_result e
      end
  | Rejected e => error_result e
  end.

Definition execute_tool (tool : Tool) (args : JSValue)
    (auth : FastMCPSessionAuth) (progressToken : JSValue) : CallToolRun :=
  let ex := tool_execute tool args auth in
  {| run_invoked := Some (tool_name tool, args, auth);
     run_timer :=
       match exec_result ex with
       | promised _ => truthy_timeout (tool_timeoutMs tool)
       | threw _ => None
       end;
     run_notifications :=
       (λ c, (c.1, notify progressToken c.2)) <$> exec_calls ex;
     run_response :=
       (λ s, (s.1, settle s.2)) <$> await_execution (tool_timeoutMs tool) ex |}.

Definition fault (f : Fault) : CallToolRun :=
  {| run_invoked := None; run_timer := None; run_notifications := [];
     run_response := Some (0%N, Throws f) |}.

(** The handler of [CallToolRequestSchema]. *)
Definition call_tool (tools : list Tool) (auth : FastMCPSessionAuth)
    (request : CallToolRequest) : CallToolRun :=
  match find_tool tools (req_name request) with
  | None =>
      fault (McpError MethodNotFound ("Unknown tool: " ++ req_name request))
  | Some tool =>
      match tool_parameters tool with
      | Some parameters =>
          match validate parameters (req_arguments request) with
          | Issues json =>
              fault (McpError InvalidParams
                       ("Invalid " ++ req_name request ++ " parameters: " ++ json))
          | Value v => execute_tool tool v auth (req_progressToken request)
          end
      | None => execute_tool tool VUndefined auth (req_progressToken request)
      end
  end.

(** An entry of the list-tools response. *)
Record ToolInfo := {
  info_annotations : option ToolAnnotations;
  info_description : option string;
  info_inputSchema : JSValue;
  info_name : string;
}.

(** The schema reported for a tool without [parameters]. *)
Definition empty_object_schema : JSValue :=
  VObj (<["additionalProperties" := VBool false]>
        (<["properties" := VObj ∅]>
         (<["type" := VStr "object"]> ∅))).

(** The handler of [ListToolsRequestSchema]. *)
Definition list_tools (tools : list Tool) : list ToolInfo :=
  (λ tool,
     {| info_annotations := tool_annotations tool;
        info_description := tool_description tool;
        info_inputSchema :=
          match tool_parameters tool with
          | Some parameters => toJsonSchema parameters
          | None => empty_object_schema
          end;
        info_name := tool_name tool |}) <$> tools.

(** ** Prompt registration and completion ([addPrompt],
    [setupCompleteHandlers]) *)

(** [new Fuse(list, {keys: ["value"]}).search(value)], as the list of the
    matched items in rank order; the package [fuse.js]. *)
Variable Fuse_search : list string → string → list string.

(** The two dictionaries that [addPrompt] fills from the arguments. *)
Definition completers_of (args : list InputPromptArgument)
  : gmap string ArgumentValueCompleter :=
  foldl (λ m a, match arg_complete a with
                | Some c => <[arg_name a := c]> m
                | None => m
                end) ∅ args.

Definition enums_of (args : list InputPromptArgument) : gmap string (list string) :=
  foldl (λ m a, match arg_enum a with
                | Some e => <[arg_name a := e]> m
                | None => m
                end) ∅ args.

(** The [complete] closure that [addPrompt] attaches to the prompt.
    The dictionaries are plain objects: [completers[name]] is an own
    completer or, for a name in [Object_prototype] without one, the
    inherited member, which is truthy and is called. *)
Definition prompt_completer (inputPrompt : InputPrompt)
    (name value : string) : Completed :=
  let args := default [] (prompt_arguments inputPrompt) in
  match completers_of args !! name with
  | Some completer => completed (completer value)
  | None =>
      if inherited_name name then call_inherited name
      else
        match enums_of args !! name with
        | Some enum =>
            let result := Fuse_search enum value in
            completed (Resolved {| hasMore := None;
                                   completion_total := Some (Z.of_nat (length result));
                                   values := result |})
        | None =>
            completed (Resolved {| hasMore := None; completion_total := None;
                                   values := [] |})
        end
  end.

Definition addPrompt (prompts : list Prompt) (inputPrompt : InputPrompt)
  : list Prompt :=
  prompts ++ [{| prompt_input := inputPrompt;
                 prompt_complete := Some (prompt_completer inputPrompt) |}].

Definition template_completers_of (args : list InputResourceTemplateArgument)
  : gmap string ArgumentValueCompleter :=
  foldl (λ m a, match targ_complete a with
                | Some c => <[targ_name a := c]> m
                | None => m
                end) ∅ args.

(** The [complete] closure that [addResourceTemplate] attaches; its
    dictionary is a plain object as well. *)
Definition template_completer (input : InputResourceTemplate)
    (name value : string) : Completed :=
  match template_completers_of (template_arguments input) !! name with
  | Some completer => completed (completer value)
  | None =>
      if inherited_name name then call_inherited name
      else completed (Resolved {| hasMore := None; completion_total := None;
                                  values := [] |})
  end.

Definition addResourceTemplate (templates : list ResourceTemplate)
    (input : InputResourceTemplate) : list ResourceTemplate :=
  templates ++ [{| template_input := input;
                   template_complete := Some (template_completer input) |}].

(** [CompletionZodSchema.parse]: at most 100 values. *)
Definition CompletionZodSchema_parse (c : Completion) : Reply Completion :=
  if decide (length (values c) ≤ 100)%nat then Returns c else Throws ZodError.

(** [request.params.ref].  The SDK parses a request with
    [CompleteRequestSchema] before it calls the handler, so the reference
    is of one of these two kinds; the last [throw] of the handler, for a
    reference of another kind, is not reached. *)
Inductive CompleteRef :=
| ref_prompt (name : string)
| ref_resource (uri : string).

Record CompleteRequest := {
  complete_ref : CompleteRef;
  complete_argument_name : string;
  complete_argument_value : string;
}.

(** [CompletionZodSchema.parse(await prompt.complete(name, value))] *)
Definition parse_completion (c : Completed) : Reply Completion :=
  match c with
  | completed (Resolved c) => CompletionZodSchema_parse c
  | completed (Rejected e) => Throws (Uncaught e)
  | inherited_returned => Throws ZodError
  | inherited_threw => Throws TypeError
  end.

(** The handler of [CompleteRequestSchema]. *)
Definition complete (prompts : list Prompt) (templates : list ResourceTemplate)
    (request : CompleteRequest) : Reply Completion :=
  match complete_ref request with
  | ref_prompt name =>
      match find (λ p, bool_decide (prompt_name (prompt_input p) = name)) prompts with
      | None => Throws (UnexpectedStateError "Unknown prompt")
      | Some prompt =>
          match prompt_complete prompt with
          | None => Throws (UnexpectedStateError "Prompt does not support completion")
          | Some f =>
              parse_completion
                (f (complete_argument_name request) (complete_argument_value request))
          end
      end
  | ref_resource uri =>
      match find (λ r, bool_decide (template_uriTemplate (template_input r) = uri))
                 templates with
      | None => Throws (UnexpectedStateError "Unknown resource")
      | Some resource =>
          match template_complete resource with
          | None => Throws (UnexpectedStateError "Resource does not support completion")
          | Some f =>
              parse_completion
                (f (complete_argument_name request) (complete_argument_value request))
          end
      end
  end.

(** ** Prompt handlers ([setupPromptHandlers]) *)

Record GetPromptRequest := {
  get_name : string;
  get_arguments : option (gmap string string);
}.

Inductive Role := user | assistant.

Record PromptMessage := {
  message_content : Content;
  message_role : Role;
}.

Record GetPromptResult := {
  result_description : option string;
  result_messages : list PromptMessage;
}.

(** [arg.required && !(args && arg.name in args)] *)
Definition missing_required (args : option (gmap string string))
    (arg : InputPromptArgument) : bool :=
  match arg_required arg with
  | Some true =>
      negb (match args with
            | Some a => js_in (arg_name arg) a
            | None => false
            end)
  | _ => false
  end.

(** The handler of [GetPromptRequestSchema]. *)
Definition get_prompt (prompts : list InputPrompt) (request : GetPromptRequest)
  : Reply GetPromptResult :=
  match find (λ p, bool_decide (prompt_name p = get_name request)) prompts with
  | None => Throws (McpError MethodNotFound ("Unknown prompt: " ++ get_name request))
  | Some prompt =>
      let args := get_arguments request in
      match find (missing_required args) (default [] (prompt_arguments prompt)) with
      | Some arg =>
          Throws (McpError InvalidRequest
                    ("Missing required argument: " ++ arg_name arg))
      | None =>
          match prompt_load prompt args with
          | Rejected (Printable e) =>
              Throws (McpError InternalError
                        ("Error loading prompt: " ++ String_of_thrown e))
          | Rejected (Unprintable conversion) => Throws (Uncaught conversion)
          | Resolved result =>
              Returns {| result_description := prompt_description prompt;
                         result_messages :=
                           [{| message_content := TextContent result;
                               message_role := user |}] |}
          end
      end
  end.

(** ** Resource handlers ([setupResourceHandlers]) *)

(** [parseURITemplate(t).fromUri(uri)] and [.fill(values)] of the package
    [uri-templates]. *)
Variable fromUri : string → string → option (gmap string string).
Variable fill : string → gmap string string → string.

Definition optional_string (s : option string) : JSValue :=
  match s with
  | Some s => VStr s
  | None => VUndefined
  end.

(** [{mimeType, name, uri, ...result}] *)
Definition content_entry (mimeType : option string) (name uri : string)
    (result : JSObject) : JSObject :=
  spread (<["mimeType" := optional_string mimeType]>
          (<["name" := VStr name]>
           (<["uri" := VStr uri]> ∅)))
         result.

(** Which loader a read called, and with what. *)
Inductive LoaderCall :=
| resource_loader (uri : string)
| template_loader (uriTemplate : string) (args : gmap string string).

Record ReadRun := {
  read_loaded : option LoaderCall;
  read_reply : Reply (list JSObject);
}.

(** The [for] loop over [this.#resourceTemplates]. *)
Fixpoint read_template (templates : list ResourceTemplate) (requested : string)
  : ReadRun :=
  match templates with
  | [] =>
      {| read_loaded := None;
         read_reply := Throws (McpError MethodNotFound
                                 ("Unknown resource: " ++ requested)) |}
  | resourceTemplate :: rest =>
      let t := template_input resourceTemplate in
      match fromUri (template_uriTemplate t) requested with
      | None => read_template rest requested
      | Some matched =>
          let uri := fill (template_uriTemplate t) matched in
          {| read_loaded := Some (template_loader (template_uriTemplate t) matched);
             read_reply :=
               match template_load t matched with
               | Rejected e => Throws (Uncaught e)
               | Resolved result =>
                   Returns [content_entry (template_mimeType t) (template_name t)
                                          uri result]
               end |}
      end
  end.

(** The handler of [ReadResourceRequestSchema]. *)
Definition read_resource (resources : list Resource)
    (templates : list ResourceTemplate) (requested : string) : ReadRun :=
  match find (λ r, bool_decide (resource_uri r = requested)) resources with
  | None => read_template templates requested
  | Some resource =>
      let entry := content_entry (resource_mimeType resource)
                     (resource_name resource) (resource_uri resource) in
      {| read_loaded := Some (resource_loader (resource_uri resource));
         read_reply :=
           match resource_load resource with
           | Rejected (Printable e) =>
               Throws (McpErrorData InternalError
                         ("Error reading resource: " ++ String_of_thrown e)
                         {["uri" := VStr (resource_uri resource)]})
           | Rejected (Unprintable conversion) => Throws (Uncaught conversion)
           | Resolved (Many results) => Returns (entry <$> results)
           | Resolved (One result) => Returns [entry result]
           end |}
  end.

(** ** The requests of a session *)

Inductive Request :=
| ListTools
| CallTool (r : CallToolRequest)
| GetPrompt (r : GetPromptRequest)
| ReadResource (uri : string)
| Complete (r : CompleteRequest)
| SetLevel (level : LoggingLevel).

(** [no_handler]: the session registered no handler for the method (the
    registry part it serves is empty) and the SDK answers for it. *)
Inductive Response :=
| ToolList (tools : list ToolInfo)
| ToolCall (run : CallToolRun)
| PromptResult (r : Reply GetPromptResult)
| ResourceRead (run : ReadRun)
| CompletionResult (r : Reply Completion)
| LevelSet
| no_handler.

Definition session_prompts (reg : SessionRegistry) : list Prompt :=
  foldl addPrompt [] (reg_prompts reg).

Definition session_resourceTemplates (reg : SessionRegistry) : list ResourceTemplate :=
  foldl addResourceTemplate [] (reg_resourcesTemplates reg).

Definition is_empty {A} (l : list A) : bool :=
  match l with [] => true | _ => false end.

(** One request on a session: the session afterwards and the response.
    The constructor registers the tool, resource and prompt handlers only
    for a registry that has such entries. *)
Definition handle (reg : SessionRegistry) (s : FastMCPSession) (r : Request)
  : FastMCPSession * Response :=
  match r with
  | ListTools =>
      (s, if is_empty (reg_tools reg) then no_handler
          else ToolList (list_tools (reg_tools reg)))
  | CallTool r =>
      (s, if is_empty (reg_tools reg) then no_handler
          else ToolCall (call_tool (reg_tools reg) (auth s) r))
  | GetPrompt r =>
      (s, if is_empty (reg_prompts reg) then no_handler
          else PromptResult (get_prompt (reg_prompts reg) r))
  | ReadResource uri =>
      (s, if is_empty (reg_resources reg) && is_empty (reg_resourcesTemplates reg)
          then no_handler
          else ResourceRead (read_resource (reg_resources reg)
                               (session_resourceTemplates reg) uri))
  | Complete r =>
      (s, CompletionResult (complete (session_prompts reg)
                              (session_resourceTemplates reg) r))
  | SetLevel level =>
      ({| auth := auth s; clientCapabilities := clientCapabilities s;
          loggingLevel := level; pingConfig := pingConfig s;
          pingInterval := pingInterval s; roots := roots s;
          transport := transport s |}, LevelSet)
  end.

(** Requests handled one after the other. *)
Fixpoint serve (reg : SessionRegistry) (s : FastMCPSession) (rs : list Request)
  : FastMCPSession * list Response :=
  match rs with
  | [] => (s, [])
  | r :: rs =>
      let '(s1, out) := handle reg s r in
      let '(s2, outs) := serve reg s1 rs in
      (s2, out :: outs)
  end.

(** ** The registries of a running server *)

(** The progress reports among the calls a tool makes on its context. *)
Definition progress_calls (calls : list (N * ContextCall)) : list (N * Progress) :=
  omap (λ c, match c.2 with
             | reportProgress p => Some (c.1, p)
             | _ => None
             end) calls.

Definition progress_notifications (ns : list (N * Notification))
  : list (N * Progress * JSValue) :=
  omap (λ n, match n.2 with
             | ProgressNotification p token => Some (n.1, p, token)
             | _ => None
             end) ns.

(** [FastMCP.start] hands its arrays [#tools], [#resources] and
    [#prompts] to the session, whose tool, resource and prompt handlers
    keep them; [addTool], [addResource] and [addPrompt] of the server push
    onto the same arrays.  The session copies the prompts and the
    resource templates into its own [#prompts] and [#resourceTemplates]
    when it is constructed, and decides then which handlers to register.
    [created] is the registry at that moment, [live] the registry when the
    request arrives. *)
Definition handle_live (created live : SessionRegistry) (s : FastMCPSession)
    (r : Request) : FastMCPSession * Response :=
  match r with
  | ListTools =>
      (s, if is_empty (reg_tools created) then no_handler
          else ToolList (list_tools (reg_tools live)))
  | CallTool r =>
      (s, if is_empty (reg_tools created) then no_handler
          else ToolCall (call_tool (reg_tools live) (auth s) r))
  | GetPrompt r =>
      (s, if is_empty (reg_prompts created) then no_handler
          else PromptResult (get_prompt (reg_prompts live) r))
  | ReadResource uri =>
      (s, if is_empty (reg_resources created)
             && is_empty (reg_resourcesTemplates created)
          then no_handler
          else ResourceRead (read_resource (reg_resources live)
                               (session_resourceTemplates created) uri))
  | Complete r =>
      (s, CompletionResult (complete (session_prompts created)
                              (session_resourceTemplates created) r))
  | SetLevel level => handle created s (SetLevel level)
  end.

(** ** Facts about lookups *)

Lemma find_unique {A} (key : A → string) (l : list A) (x : A) :
  NoDup (key <$> l) → x ∈ l →
  find (λ y, bool_decide (key y = key x)) l = Some x.
Proof using Type.
  induction l as [|y l IH]; intros Hnd Hin; [by apply elem_of_nil in Hin|].
  apply NoDup_cons in Hnd as [Hy Hnd]. cbn.
  apply elem_of_cons in Hin as [->|Hin].
  - by rewrite bool_decide_eq_true_2.
  - rewrite bool_decide_eq_false_2; [by apply IH|].
    intros Heq. apply Hy. rewrite Heq. by apply list_elem_of_fmap_2.
Qed.

Lemma find_absent {A} (key : A → string) (l : list A) (k : string) :
  (∀ y, y ∈ l → key y ≠ k) →
  find (λ y, bool_decide (key y = k)) l = None.
Proof using Type.
  induction l as [|y l IH]; intros Hall; [done|]. cbn.
  rewrite bool_decide_eq_false_2; [|apply Hall; left].
  apply IH. intros z Hz. apply Hall. by right.
Qed.

Lemma find_tool_registered (tools : list Tool) (tool : Tool) (name : string) :
  tool ∈ tools → NoDup (tool_name <$> tools) → name = tool_name tool →
  find_tool tools name = Some tool.
Proof using Type. intros Hin Hnd ->. by apply (find_unique tool_name). Qed.

(** A call-tool request leaves the session as it was, and the requests
    after it are answered as they would be without it. *)
Lemma serve_after_call_tool reg s request rs :
  (handle reg s (CallTool request)).1 = s
  ∧ (serve reg s (CallTool request :: rs)).1 = (serve reg s rs).1
  ∧ (serve reg s (CallTool request :: rs)).2
    = (handle reg s (CallTool request)).2 :: (serve reg s rs).2.
Proof using Type.
  split; [done|]. cbn [serve handle].
  by destruct (serve reg s rs) as [s2 outs].
Qed.

Lemma serve_keeps_transport reg s rs :
  transport (serve reg s rs).1 = transport s.
Proof using Type.
  revert s. induction rs as [|r rs IH]; intros s; [done|]. cbn [serve].
  destruct (handle reg s r) as [s1 out] eqn:Hh.
  specialize (IH s1). destruct (serve reg s1 rs) as [s2 outs]. cbn in *.
  rewrite IH. by destruct r; inversion Hh.
Qed.

(** ** Calling tools *)

(** A request for a registered tool whose arguments pass the schema of
    the tool, if it has one, comes to the call of [execute]. *)
Lemma call_tool_validated tools auth request tool args :
  tool ∈ tools → NoDup (tool_name <$> tools) →
  req_name request = tool_name tool →
  match tool_parameters tool with
  | Some parameters => validate parameters (req_arguments request) = Value args
  | None => args = VUndefined
  end →
  call_tool tools auth request
  = execute_tool tool args auth (req_progressToken request).
Proof using Type.
  intros Hin Hnd Hname Hvalid. unfold call_tool.
  rewrite (find_tool_registered _ tool) by done.
  destruct (tool_parameters tool) as [parameters|]; [by rewrite Hvalid|by subst].
Qed.

Lemma setTimeout_delay_positive ms : (1 ≤ setTimeout_delay ms)%N.
Proof using Type.
  unfold setTimeout_delay. destruct (1 <=? ms)%N eqn:Hone; cbn; [|lia].
  destruct (ms <=? TIMEOUT_MAX)%N; [|lia]. by apply N.leb_le.
Qed.

Lemma setTimeout_delay_nonzero ms :
  ms ≠ 0%N →
  setTimeout_delay ms = if (ms <=? TIMEOUT_MAX)%N then ms else 1%N.
Proof using Type.
  intros Hnz. unfold setTimeout_delay.
  destruct (1 <=? ms)%N eqn:Hone; [done|]. apply N.leb_gt in Hone. lia.
Qed.

Lemma timer_wins_false {A} timer_first due (p : Promise A) :
  timer_wins timer_first due p = false
  ↔ ∃ t o, p = Some (t, o)
           ∧ ((t < due)%N ∨ (t = due ∧ timer_first = false)).
Proof using Type.
  destruct p as [[t o]|]; cbn.
  - split.
    + intros [Hlt Htie]%orb_false_elim. apply N.ltb_ge in Hlt.
      exists t, o. split; [done|].
      apply andb_false_iff in Htie as [Hne%N.eqb_neq| ->]; [left; lia|].
      destruct (decide (t = due)); [by right|left; lia].
    + intros (t' & o' & [= <- <-] & [Hlt|[-> ->]]).
      * apply orb_false_intro; [apply N.ltb_ge; lia|].
        apply andb_false_iff. left. apply N.eqb_neq. lia.
      * rewrite N.ltb_irrefl. cbn. apply andb_false_r.
  - split; [done|]. by intros (t & o & ? & _).
Qed.

Lemma timer_wins_true {A} timer_first due (p : Promise A) :
  timer_wins timer_first due p = true
  ↔ match p with
    | Some (t, _) => (due < t)%N ∨ (t = due ∧ timer_first = true)
    | None => True
    end.
Proof using Type.
  destruct p as [[t o]|]; cbn; [|done]. split.
  - intros [Hlt%N.ltb_lt|[Heq%N.eqb_eq ->]%andb_true_iff]%orb_true_iff;
      [by left|by right].
  - intros [Hlt|[-> ->]]; apply orb_true_iff.
    + left. by apply N.ltb_lt.
    + right. by rewrite N.eqb_refl.
Qed.

(** The awaited promise when the timer, if there is one, does not come
    first: the settling of [execute]. *)
Lemma await_execution_settled timeoutMs ex t o :
  exec_settles ex = Some (t, o) →
  (∀ ms, timeoutMs = Some ms → ms ≠ 0%N →
         (t < timer_fires ex ms)%N
         ∨ (t = timer_fires ex ms ∧ exec_timer_first ex = false)) →
  await_execution timeoutMs ex = Some (N.max (exec_returns ex) t, o).
Proof using Type.
  intros Hsettles Htimer. unfold await_execution, truthy_timeout.
  destruct timeoutMs as [ms|]; [|by rewrite Hsettles].
  destruct (decide (ms = 0%N)); [by rewrite Hsettles|].
  unfold race_timeout.
  assert (timer_wins (exec_timer_first ex) (timer_fires ex ms) (exec_settles ex)
          = false) as ->; [|by rewrite Hsettles].
  apply timer_wins_false. exists t, o. split; [done|]. by apply Htimer.
Qed.

(** The awaited promise when the timer comes first: the rejection by
    the timer, at the moment it is due. *)
Lemma await_execution_timeout timeoutMs ex ms :
  timeoutMs = Some ms → ms ≠ 0%N →
  match exec_settles ex with
  | Some (t, _) =>
      (timer_fires ex ms < t)%N ∨ (t = timer_fires ex ms ∧ exec_timer_first ex = true)
  | None => True
  end →
  await_execution timeoutMs ex
  = Some (timer_fires ex ms, Rejected (UserError (timeout_message ms))).
Proof using Type.
  intros -> Hnz Hfirst. unfold await_execution, truthy_timeout.
  destruct (decide (ms = 0%N)); [done|].
  unfold race_timeout.
  apply timer_wins_true in Hfirst as ->. cbn. do 2 f_equal.
  unfold timer_fires, timer_due. lia.
Qed.

(** Without a timer the awaited promise is the one of [execute]. *)
Lemma await_execution_no_timer timeoutMs ex :
  timeoutMs = Some 0%N ∨ timeoutMs = None →
  await_execution timeoutMs ex
  = (λ s, (N.max (exec_returns ex) s.1, s.2)) <$> exec_settles ex.
Proof using Type. by intros [->| ->]. Qed.

(** With a timer the awaited promise settles, and not after the timer
    is due. *)
Lemma await_execution_bounded timeoutMs ex ms :
  timeoutMs = Some ms → ms ≠ 0%N →
  ∃ t o, await_execution timeoutMs ex = Some (t, o)
         ∧ (t ≤ timer_fires ex ms)%N
         ∧ (o = Rejected (UserError (timeout_message ms))
            ∨ ∃ t0, exec_settles ex = Some (t0, o)).
Proof using Type.
  intros Hms Hnz.
  destruct (timer_wins (exec_timer_first ex) (timer_fires ex ms) (exec_settles ex))
    eqn:Hwins.
  - apply timer_wins_true in Hwins.
    rewrite (await_execution_timeout _ _ ms) by done.
    eexists _, _. split; [done|]. split; [lia|by left].
  - apply timer_wins_false in Hwins as (t & o & Hsettles & Hfirst).
    rewrite (await_execution_settled _ _ t o); [| done |].
    + eexists _, _. split; [done|]. split; [|right; by exists t].
      unfold timer_fires, timer_due in *.
      pose proof (setTimeout_delay_positive ms). lia.
    + intros ms' Hms'. rewrite Hms in Hms'. by injection Hms' as <-.
Qed.

(** The handler throws only what the conversion of a thrown value to a
    string throws. *)
Lemma settle_throws o f :
  settle o = Throws f ↔ ∃ conversion, o = Rejected (Unprintable conversion)
                                      ∧ f = Uncaught conversion.
Proof using Type.
  unfold settle, ContentResultZodSchema_parse. split.
  - destruct o as [r|[[]|conversion]]; cbn; try done.
    + by destruct (ContentResultZodSchema_issues (normalize r)).
    + intros [= <-]. by exists conversion.
  - by intros (conversion & -> & ->).
Qed.

(** C10.  A tool registered without [parameters] is executed with
    [undefined] as its arguments, whatever the request supplies: the
    call of [execute] carries [undefined], the notifications and the
    answer are those of [tool.execute(undefined, ...)], no error of the
    protocol such as a validation error can be the answer, and any other
    supplied arguments give the same run. *)
Theorem call_tool_without_parameters tools auth request tool :
  tool ∈ tools → NoDup (tool_name <$> tools) →
  req_name request = tool_name tool →
  tool_parameters tool = None →
  let run := call_tool tools auth request in
  let ex := tool_execute tool VUndefined auth in
  run_invoked run = Some (tool_name tool, VUndefined, auth)
  ∧ run_notifications run
    = (λ c, (c.1, notify (req_progressToken request) c.2)) <$> exec_calls ex
  ∧ run_response run
    = (λ s, (s.1, settle s.2)) <$> await_execution (tool_timeoutMs tool) ex
  ∧ (∀ t code message,
       run_response run ≠ Some (t, Throws (McpError code message)))
  ∧ ∀ supplied,
      call_tool tools auth
        {| req_name := req_name request; req_arguments := supplied;
           req_progressToken := req_progressToken request |} = run.
Proof using Type.
  intros Hin Hnd Hname Hnone run ex.
  assert (Hcall : ∀ supplied,
             call_tool tools auth
               {| req_name := req_name request; req_arguments := supplied;
                  req_progressToken := req_progressToken request |}
             = execute_tool tool VUndefined auth (req_progressToken request)).
  { intros supplied.
    rewrite (call_tool_validated tools auth _ tool VUndefined); [done..|].
    by rewrite Hnone. }
  assert (Hrun : run = execute_tool tool VUndefined auth (req_progressToken request)).
  { subst run. rewrite <- (Hcall (req_arguments request)). by destruct request. }
  rewrite Hrun. split; [done|]. split; [done|]. split; [done|]. split; [|done].
  intros t code message. cbn. fold ex.
  destruct (await_execution (tool_timeoutMs tool) ex) as [[t' o]|]; [|done].
  cbn. intros [= _ Hthrows]. by apply settle_throws in Hthrows as (? & _ & ?).
Qed.

(** C1 (amended).  When [execute] throws a value that converts to a
    string and the callback of the timer of a declared non-zero timeout
    has not run before, the answer is a result with [isError] true and
    one text item: the message of a [UserError], otherwise "Error: "
    followed by the value as a string.  When the callback of the timer
    runs first, the answer is the result with the message of the timeout
    instead.  Either way it is a
    result, not an RPC error; the session is unchanged and serves the
    requests after it. *)
Theorem call_tool_execute_throws reg s request tool args t (e : Thrown) rs :
  tool ∈ reg_tools reg → NoDup (tool_name <$> reg_tools reg) →
  req_name request = tool_name tool →
  match tool_parameters tool with
  | Some parameters => validate parameters (req_arguments request) = Value args
  | None => args = VUndefined
  end →
  let ex := tool_execute tool args (auth s) in
  let run := call_tool (reg_tools reg) (auth s) request in
  exec_settles ex = Some (t, Rejected e) →
  ((∀ ms, tool_timeoutMs tool = Some ms → ms ≠ 0%N →
          (t < timer_fires ex ms)%N
          ∨ (t = timer_fires ex ms ∧ exec_timer_first ex = false)) →
   run_response run
   = Some (N.max (exec_returns ex) t,
           Returns {| content :=
                        [TextContent match e with
                                     | UserError message => message
                                     | _ => "Error: " ++ String_of_thrown e
                                     end];
                      isError := Some true |}))
  ∧ (∀ ms, tool_timeoutMs tool = Some ms → ms ≠ 0%N →
           (ms ≤ MAX_SAFE_INTEGER)%N →
           (timer_fires ex ms < t)%N
           ∨ (t = timer_fires ex ms ∧ exec_timer_first ex = true) →
           run_response run
           = Some (timer_fires ex ms,
                   Returns {| content :=
                                [TextContent ("Tool execution timed out after "
                                              ++ pretty ms ++ "ms")];
                              isError := Some true |}))
  ∧ (handle reg s (CallTool request)).1 = s
  ∧ (serve reg s (CallTool request :: rs)).2 = ToolCall run :: (serve reg s rs).2
  ∧ transport (serve reg s (CallTool request :: rs)).1 = transport s.
Proof using Type.
  intros Hin Hnd Hname Hvalid ex run Hthrows.
  assert (Hrun : run = execute_tool tool args (auth s) (req_progressToken request)).
  { subst run. by apply call_tool_validated. }
  split; [|split; [|split; [done|split; [|apply serve_keeps_transport]]]].
  - intros Htimer. rewrite Hrun. cbn. fold ex.
    rewrite (await_execution_settled _ _ t (Rejected e)) by done.
    cbn. by destruct e.
  - intros ms Hms Hnz _ Hfirst. rewrite Hrun. cbn. fold ex.
    rewrite (await_execution_timeout _ _ ms); [done..|].
    by rewrite Hthrows.
  - destruct (serve_after_call_tool reg s request rs) as (_ & _ & ->).
    f_equal. cbn. destruct (reg_tools reg); [by apply elem_of_nil in Hin|done].
Qed.

(** C2 (amended).  For a tool that declares a non-zero [timeoutMs], the
    handler sets a timer when the call of [execute] has returned, with
    that delay, which Node replaces by 1ms when it exceeds
    [TIMEOUT_MAX].  When the callback of the timer runs before
    [execute] settles, which is when the timer is due or later if the
    run keeps the event loop busy, the answer comes at that moment and is
    a result with [isError] true whose text is
    "Tool execution timed out after <timeoutMs>ms".  A tool that
    declares [timeoutMs: 0] is treated like one that declares none: no
    timer is set and the answer is that of [execute].  In every case the
    call of [execute] was made and is not cancelled: every notification
    it causes, also a later one, is sent.  The session is unchanged and
    serves the requests after it. *)
Theorem call_tool_timeout reg s request tool args rs :
  tool ∈ reg_tools reg → NoDup (tool_name <$> reg_tools reg) →
  req_name request = tool_name tool →
  match tool_parameters tool with
  | Some parameters => validate parameters (req_arguments request) = Value args
  | None => args = VUndefined
  end →
  let ex := tool_execute tool args (auth s) in
  let run := call_tool (reg_tools reg) (auth s) request in
  (∀ ms, tool_timeoutMs tool = Some ms → ms ≠ 0%N →
         (ms ≤ MAX_SAFE_INTEGER)%N →
         match exec_settles ex with
         | Some (t, _) =>
             (timer_fires ex ms < t)%N
             ∨ (t = timer_fires ex ms ∧ exec_timer_first ex = true)
         | None => True
         end →
         run_timer run = Some ms
         ∧ timer_fires ex ms
           = (let due :=
                (exec_returns ex + if (ms <=? 2147483647)%N then ms else 1)%N in
              due + exec_lag ex due)%N
         ∧ run_response run
           = Some (timer_fires ex ms,
                   Returns {| content :=
                                [TextContent ("Tool execution timed out after "
                                              ++ pretty ms ++ "ms")];
                              isError := Some true |}))
  ∧ (tool_timeoutMs tool = Some 0%N ∨ tool_timeoutMs tool = None →
     run_timer run = None
     ∧ run_response run
       = (λ settled, (N.max (exec_returns ex) settled.1, settle settled.2))
           <$> exec_settles ex)
  ∧ run_invoked run = Some (tool_name tool, args, auth s)
  ∧ run_notifications run
    = (λ c, (c.1, notify (req_progressToken request) c.2)) <$> exec_calls ex
  ∧ (handle reg s (CallTool request)).1 = s
  ∧ (serve reg s (CallTool request :: rs)).2 = ToolCall run :: (serve reg s rs).2
  ∧ transport (serve reg s (CallTool request :: rs)).1 = transport s.
Proof using Type.
  intros Hin Hnd Hname Hvalid ex run.
  assert (Hrun : run = execute_tool tool args (auth s) (req_progressToken request)).
  { subst run. by apply call_tool_validated. }
  split; [|split; [|split; [by rewrite Hrun|split; [by rewrite Hrun|
    split; [done|split; [|apply serve_keeps_transport]]]]]].
  - intros ms Hms Hnz _ Hfirst. rewrite Hrun. cbn. fold ex. split; [|split].
    + destruct (exec_result ex) as [p|thrown] eqn:Hresult.
      * rewrite Hms. cbn. by destruct (decide (ms = 0%N)).
      * unfold exec_settles, timer_fires, timer_due in Hfirst.
        rewrite Hresult in Hfirst.
        pose proof (setTimeout_delay_positive ms). lia.
    + unfold timer_fires, timer_due. by rewrite setTimeout_delay_nonzero.
    + by rewrite (await_execution_timeout _ _ ms).
  - intros Hnone. rewrite Hrun. cbn. fold ex. split.
    + destruct (exec_result ex); [|done]. by destruct Hnone as [->| ->].
    + rewrite await_execution_no_timer by done.
      by destruct (exec_settles ex) as [[t o]|].
  - destruct (serve_after_call_tool reg s request rs) as (_ & _ & ->).
    f_equal. cbn. destruct (reg_tools reg); [by apply elem_of_nil in Hin|done].
Qed.

(** ** Listing tools *)

Lemma empty_object_schema_accepts sub instance :
  schema_accepts sub empty_object_schema instance = true ↔ instance = VObj ∅.
Proof using Type.
  unfold empty_object_schema, schema_accepts.
  set (keywords := <["additionalProperties" := VBool false]> _).
  assert (keywords !! "properties" = Some (VObj ∅)) as -> by reflexivity.
  assert (keywords !! "additionalProperties" = Some (VBool false)) as ->
    by reflexivity.
  assert (keywords !! "type" = Some (VStr "object")) as -> by reflexivity.
  destruct instance as [| | | | | |o]; cbn; try (split; [done|congruence]).
  rewrite dom_empty_L. split.
  - intros [_ Hdom%bool_decide_eq_true]%andb_true_iff. f_equal.
    apply dom_empty_iff_L. by apply equiv_empty_L.
  - injection 1 as ->. by rewrite map_to_list_empty.
Qed.

(** C4 (amended).  The list-tools response reports every registered
    tool, in order, with its name, description and annotations.  A tool
    with a schema gets the JSON Schema converted from it.  A tool
    without one gets the object schema with no properties and
    [additionalProperties: false], which accepts the empty object and
    nothing else. *)
Theorem list_tools_reports tools i tool :
  tools !! i = Some tool →
  ∃ info,
    list_tools tools !! i = Some info
    ∧ info_name info = tool_name tool
    ∧ info_description info = tool_description tool
    ∧ info_annotations info = tool_annotations tool
    ∧ match tool_parameters tool with
      | Some parameters => info_inputSchema info = toJsonSchema parameters
      | None =>
          info_inputSchema info
          = VObj (<["additionalProperties" := VBool false]>
                  (<["properties" := VObj ∅]> (<["type" := VStr "object"]> ∅)))
          ∧ ∀ sub instance,
              schema_accepts sub (info_inputSchema info) instance = true
              ↔ instance = VObj ∅
      end.
Proof using Type.
  intros Hi. unfold list_tools. rewrite list_lookup_fmap, Hi. cbn.
  eexists. split; [done|]. cbn. repeat split; try done.
  destruct (tool_parameters tool); [done|]. split; [done|].
  apply empty_object_schema_accepts.
Qed.

(** ** Completion of prompt arguments *)

Lemma foldl_addPrompt acc inputs :
  foldl addPrompt acc inputs
  = (acc ++ ((λ ip, {| prompt_input := ip;
                       prompt_complete := Some (prompt_completer ip) |}) <$> inputs))%list.
Proof using Type.
  revert acc. induction inputs as [|ip inputs IH]; intros acc; cbn.
  - by rewrite app_nil_r.
  - rewrite IH. unfold addPrompt. by rewrite <- app_assoc.
Qed.

Lemma find_fmap {A B} (f : A → B) (P : B → bool) (l : list A) :
  find P (f <$> l) = f <$> find (λ x, P (f x)) l.
Proof using Type.
  induction l as [|x l IH]; [done|]. cbn. by destruct (P (f x)).
Qed.

Section Dictionary.
Context {A V : Type} (key : A → string) (val : A → option V).

Let fill_dictionary (m : gmap string V) (x : A) : gmap string V :=
  match val x with
  | Some v => <[key x := v]> m
  | None => m
  end.

Lemma dictionary_lookup_other (l : list A) (m : gmap string V) (k : string) :
  k ∉ key <$> l → foldl fill_dictionary m l !! k = m !! k.
Proof using Type.
  revert m. induction l as [|x l IH]; intros m Hk; [done|].
  cbn in *. apply not_elem_of_cons in Hk as [Hx Hl].
  rewrite IH by done. unfold fill_dictionary.
  destruct (val x); [by rewrite lookup_insert_ne|done].
Qed.

Lemma dictionary_lookup (l : list A) (m : gmap string V) (a : A) :
  a ∈ l → NoDup (key <$> l) →
  foldl fill_dictionary m l !! key a
  = match val a with
    | Some v => Some v
    | None => m !! key a
    end.
Proof using Type.
  revert m. induction l as [|x l IH]; intros m Hin Hnd;
    [by apply elem_of_nil in Hin|].
  cbn in Hnd. apply NoDup_cons in Hnd as [Hx Hnd]. cbn.
  apply elem_of_cons in Hin as [->|Hin].
  - rewrite dictionary_lookup_other by done. unfold fill_dictionary.
    destruct (val x); [by rewrite lookup_insert_eq|done].
  - rewrite IH by done. destruct (val a); [done|].
    unfold fill_dictionary. destruct (val x); [|done].
    rewrite lookup_insert_ne; [done|].
    intros Heq. apply Hx. rewrite Heq. by apply list_elem_of_fmap_2.
Qed.
End Dictionary.

Lemma completers_of_lookup args a :
  a ∈ args → NoDup (arg_name <$> args) →
  completers_of args !! arg_name a = arg_complete a.
Proof using Type.
  intros Hin Hnd. unfold completers_of.
  rewrite (dictionary_lookup arg_name arg_complete) by done.
  by destruct (arg_complete a).
Qed.



(** ** Reading resources *)

Lemma content_entry_inherits mimeType name uri result :
  inherits mimeType name uri result (content_entry mimeType name uri result).
Proof using Type.
  unfold inherits, content_entry, spread. repeat split.
  - intros k v Hk. by apply lookup_union_Some_l.
  - intros Hk. rewrite lookup_union_r by done.
    by rewrite lookup_insert_ne, lookup_insert_eq.
  - intros Hk. rewrite lookup_union_r by done.
    by do 2 rewrite lookup_insert_ne by done; rewrite lookup_insert_eq.
  - intros Hk. rewrite lookup_union_r by done.
    rewrite lookup_insert_eq. by destruct mimeType.
  - rewrite dom_union_L, !dom_insert_L, dom_empty_L. set_solver.
Qed.

(** C7.  Reading a direct resource by its exact URI calls its loader.
    When the loader returns one object the contents have one entry, when
    it returns a list of N objects they have N entries, in order; each
    entry has the properties of the loader's object and takes the name,
    URI and MIME type of the resource where that object has none. *)
Theorem read_resource_direct resources templates requested resource :
  resource ∈ resources → NoDup (resource_uri <$> resources) →
  resource_uri resource = requested →
  let run := read_resource resources templates requested in
  let inherited :=
    inherits (resource_mimeType resource) (resource_name resource)
             (resource_uri resource) in
  read_loaded run = Some (resource_loader requested)
  ∧ (∀ result, resource_load resource = Resolved (One result) →
       ∃ entry, read_reply run = Returns [entry] ∧ inherited result entry)
  ∧ (∀ results, resource_load resource = Resolved (Many results) →
       ∃ entries,
         read_reply run = Returns entries
         ∧ length entries = length results
         ∧ ∀ i result, results !! i = Some result →
             ∃ entry, entries !! i = Some entry ∧ inherited result entry).
Proof using Type.
  intros Hin Hnd Huri run inherited. subst run inherited.
  unfold read_resource.
  rewrite <- Huri, (find_unique resource_uri) by done. cbn.
  split; [done|]. split.
  - intros result ->. eexists. split; [done|]. apply content_entry_inherits.
  - intros results ->. eexists. split; [done|]. split.
    + by rewrite length_fmap.
    + intros i result Hi. eexists. rewrite list_lookup_fmap, Hi. cbn.
      split; [done|]. apply content_entry_inherits.
Qed.

Lemma foldl_addResourceTemplate acc inputs :
  foldl addResourceTemplate acc inputs
  = (acc ++ ((λ input, {| template_input := input;
                          template_complete := Some (template_completer input) |})
               <$> inputs))%list.
Proof using Type.
  revert acc. induction inputs as [|input inputs IH]; intros acc; cbn.
  - by rewrite app_nil_r.
  - rewrite IH. unfold addResourceTemplate. by rewrite <- app_assoc.
Qed.

Lemma read_template_skips before templates requested :
  (∀ t, t ∈ before →
     fromUri (template_uriTemplate (template_input t)) requested = None) →
  read_template (before ++ templates) requested = read_template templates requested.
Proof using Type.
  induction before as [|t before IH]; intros Hnone; [done|]. cbn.
  rewrite Hnone by left. apply IH. intros t' Ht'. apply Hnone. by right.
Qed.

(** C6.  Reading a URI that is no direct resource's URI tries the
    resource templates in the order of their registration.  The first
    template whose pattern matches the URI is the one whose loader is
    called, with the placeholder values taken from the URI, and its
    result is the answer; when no template matches, the request fails
    with MethodNotFound. *)
Theorem read_resource_by_template reg requested :
  (∀ r, r ∈ reg_resources reg → resource_uri r ≠ requested) →
  let run := read_resource (reg_resources reg) (session_resourceTemplates reg)
               requested in
  (∀ before template after matched,
     reg_resourcesTemplates reg = (before ++ template :: after)%list →
     (∀ t, t ∈ before → fromUri (template_uriTemplate t) requested = None) →
     fromUri (template_uriTemplate template) requested = Some matched →
     read_loaded run
     = Some (template_loader (template_uriTemplate template) matched)
     ∧ read_reply run
       = match template_load template matched with
         | Resolved result =>
             Returns [content_entry (template_mimeType template)
                        (template_name template)
                        (fill (template_uriTemplate template) matched) result]
         | Rejected e => Throws (Uncaught e)
         end)
  ∧ ((∀ t, t ∈ reg_resourcesTemplates reg →
        fromUri (template_uriTemplate t) requested = None) →
     read_loaded run = None
     ∧ read_reply run
       = Throws (McpError MethodNotFound ("Unknown resource: " ++ requested))).
Proof using Type.
  intros Hdirect run. subst run. unfold read_resource.
  rewrite (find_absent resource_uri) by done.
  unfold session_resourceTemplates. rewrite foldl_addResourceTemplate, app_nil_l.
  split.
  - intros before template after matched -> Hbefore Hmatch.
    rewrite fmap_app, read_template_skips.
    + cbn. by rewrite Hmatch.
    + intros t [input [-> Hinput]]%list_elem_of_fmap. cbn. by apply Hbefore.
  - intros Hnone. rewrite <- (app_nil_r (_ <$> _)), read_template_skips; [done|].
    intros t [input [-> Hinput]]%list_elem_of_fmap. cbn. by apply Hnone.
Qed.

(** ** Getting prompts *)

Lemma js_in_found {V} (k : string) (o : gmap string V) :
  js_in k o = true ↔ is_Some (o !! k) ∨ k ∈ Object_prototype.
Proof using Type.
  unfold js_in, inherited_name.
  by rewrite orb_true_iff, !bool_decide_eq_true.
Qed.

Lemma find_none_forall {A} (P : A → bool) (l : list A) :
  (∀ x, x ∈ l → P x = false) → find P l = None.
Proof using Type.
  induction l as [|x l IH]; intros Hall; [done|]. cbn.
  rewrite Hall by left. apply IH. intros y Hy. apply Hall. by right.
Qed.

Lemma find_some_exists {A} (P : A → bool) (l : list A) (x : A) :
  x ∈ l → P x = true → ∃ y, find P l = Some y ∧ y ∈ l ∧ P y = true.
Proof using Type.
  induction l as [|z l IH]; intros Hin Hx; [by apply elem_of_nil in Hin|]. cbn.
  destruct (P z) eqn:Hz.
  - exists z. repeat split; [left|done].
  - apply elem_of_cons in Hin as [->|Hin]; [congruence|].
    destruct (IH Hin Hx) as (y & ? & ? & ?). exists y. repeat split; [done|by right|done].
Qed.

(** Get-prompt on a registered prompt for which every required argument
    is found in the supplied arguments calls the prompt's [load] and
    answers with the string it produced as one text message of role
    user; with a required argument that is not found it fails with
    InvalidRequest; for a name that is not registered it fails with
    MethodNotFound.  An argument is found when the supplied object has
    it or inherits its name. *)
Lemma get_prompt_cases prompts request :
  NoDup (prompt_name <$> prompts) →
  (∀ prompt,
     prompt ∈ prompts → prompt_name prompt = get_name request →
     let declared := default [] (prompt_arguments prompt) in
     let found name :=
       match get_arguments request with
       | Some arguments => is_Some (arguments !! name) ∨ name ∈ Object_prototype
       | None => False
       end in
     (∀ produced,
        (∀ a, a ∈ declared → arg_required a = Some true → found (arg_name a)) →
        prompt_load prompt (get_arguments request) = Resolved produced →
        get_prompt prompts request
        = Returns {| result_description := prompt_description prompt;
                     result_messages :=
                       [{| message_content := TextContent produced;
                           message_role := user |}] |})
     ∧ (∀ a, a ∈ declared → arg_required a = Some true →
             ¬ found (arg_name a) →
             ∃ message, get_prompt prompts request
                        = Throws (McpError InvalidRequest message)))
  ∧ ((∀ prompt, prompt ∈ prompts → prompt_name prompt ≠ get_name request) →
     ∃ message, get_prompt prompts request
                = Throws (McpError MethodNotFound message)).
Proof using Type.
  intros Hnd. split.
  - intros prompt Hin Hname declared found.
    unfold get_prompt. rewrite <- Hname, (find_unique prompt_name) by done.
    fold declared. split.
    + intros produced Hall Hload.
      rewrite find_none_forall, Hload; [done|].
      intros a Ha. unfold missing_required.
      destruct (arg_required a) as [[]|] eqn:Hreq; [|done..].
      specialize (Hall a Ha Hreq). unfold found in Hall.
      destruct (get_arguments request); [|done].
      by apply negb_false_iff, js_in_found.
    + intros a Ha Hreq Hmissing.
      destruct (find_some_exists (missing_required (get_arguments request))
                  declared a Ha) as (b & Hfind & _ & _).
      * unfold missing_required. rewrite Hreq. unfold found in Hmissing.
        destruct (get_arguments request); [|done].
        apply negb_true_iff, not_true_is_false. by rewrite js_in_found.
      * rewrite Hfind. by eexists.
  - intros Hnone. unfold get_prompt.
    rewrite (find_absent prompt_name) by done. by eexists.
Qed.

(** C9.  The claim fails for a required argument whose name every
    object inherits from [Object.prototype]: this prompt requires the
    argument [constructor], the request supplies the empty object, and
    get-prompt does not fail with InvalidRequest but calls [load] and
    answers with its message. *)
Theorem get_prompt_inherited_argument :
  let request := {| get_name := "build"; get_arguments := Some ∅ |} in
  (∀ a, a ∈ default [] (prompt_arguments constructor_prompt) →
        arg_required a = Some true ∧ get_arguments request ≫= (.!! arg_name a) = None)
  ∧ get_prompt [constructor_prompt] request
    = Returns {| result_description := None;
                 result_messages :=
                   [{| message_content := TextContent "Describe the build";
                       message_role := user |}] |}
  ∧ ∀ message,
      get_prompt [constructor_prompt] request
      ≠ Throws (McpError InvalidRequest message).
Proof using Type.
  split; [|split; [reflexivity|by vm_compute]].
  intros a Ha. apply list_elem_of_singleton in Ha. by rewrite Ha.
Qed.

(** ** Further facts about calling tools *)


(** X2.  A request whose arguments fail the schema of its tool does not
    disturb the session: it is answered with InvalidParams, the session
    is unchanged and the requests after it get the answers they would get
    without it. *)
Theorem serve_after_invalid_params reg s request tool parameters json rs :
  tool ∈ reg_tools reg → NoDup (tool_name <$> reg_tools reg) →
  req_name request = tool_name tool →
  tool_parameters tool = Some parameters →
  validate parameters (req_arguments request) = Issues json →
  serve reg s (CallTool request :: rs)
  = ((serve reg s rs).1,
     ToolCall (fault (McpError InvalidParams
                        ("Invalid " ++ tool_name tool ++ " parameters: " ++ json)))
       :: (serve reg s rs).2).
Proof using Type.
  intros Hin Hnd Hname Hparams Hissues. cbn [serve handle].
  destruct (serve reg s rs) as [s2 outs]. cbn. do 2 f_equal.
  destruct (reg_tools reg) as [|t0 ts] eqn:Htools; [by apply elem_of_nil in Hin|].
  cbn [is_empty]. f_equal. unfold call_tool.
  rewrite (find_tool_registered _ tool) by done.
  by rewrite Hparams, Hissues, Hname.
Qed.

(** X3.  A tool with a non-zero [timeoutMs] is always answered, also
    when [execute] never settles: no later than the callback of its
    timer runs, which is at most [timeoutMs] after the call of [execute]
    has returned, and whatever longer the run keeps the event loop busy
    then.  The answer is a result, except when [execute] itself threw a
    value whose conversion to a string throws. *)
Theorem call_tool_answers_within_timeout tools auth request tool args ms :
  tool ∈ tools → NoDup (tool_name <$> tools) →
  req_name request = tool_name tool →
  match tool_parameters tool with
  | Some parameters => validate parameters (req_arguments request) = Value args
  | None => args = VUndefined
  end →
  tool_timeoutMs tool = Some ms → ms ≠ 0%N →
  let ex := tool_execute tool args auth in
  ∃ t reply,
    run_response (call_tool tools auth request) = Some (t, reply)
    ∧ (t ≤ timer_fires ex ms)%N
    ∧ (timer_fires ex ms
       ≤ exec_returns ex + ms + exec_lag ex (exec_returns ex + setTimeout_delay ms))%N
    ∧ ((∃ result, reply = Returns result)
       ∨ ∃ settled conversion,
           exec_settles ex = Some (settled, Rejected (Unprintable conversion))
           ∧ reply = Throws (Uncaught conversion)).
Proof using Type.
  intros Hin Hnd Hname Hvalid Hms Hnz ex.
  rewrite (call_tool_validated tools auth request tool args) by done.
  cbn. fold ex.
  destruct (await_execution_bounded (tool_timeoutMs tool) ex ms Hms Hnz)
    as (t & o & -> & Hle & Ho).
  cbn. exists t, (settle o). split; [done|]. split; [done|]. split.
  { unfold timer_fires, timer_due. rewrite setTimeout_delay_nonzero by done.
    destruct (ms <=? TIMEOUT_MAX)%N; lia. }
  destruct (settle o) as [result|f] eqn:Hsettle; [left; by exists result|right].
  apply settle_throws in Hsettle as (conversion & -> & ->).
  destruct Ho as [?|[settled Hsettles]]; [done|]. by exists settled, conversion.
Qed.

(** X4.  What [execute] returns, when the callback of the timer of a
    timeout has not run before, becomes the answer as follows: a string becomes one text
    item, a single content item becomes a list of one, a content result
    is taken as it is; if the value so built fails the content schema,
    the answer is an [isError] result with the text "Error: " and the
    message of the schema error, not an RPC error. *)
Theorem call_tool_normalizes tools auth request tool args t returned :
  tool ∈ tools → NoDup (tool_name <$> tools) →
  req_name request = tool_name tool →
  match tool_parameters tool with
  | Some parameters => validate parameters (req_arguments request) = Value args
  | None => args = VUndefined
  end →
  let ex := tool_execute tool args auth in
  exec_settles ex = Some (t, Resolved returned) →
  (∀ ms, tool_timeoutMs tool = Some ms → ms ≠ 0%N →
         (t < timer_fires ex ms)%N
         ∨ (t = timer_fires ex ms ∧ exec_timer_first ex = false)) →
  let built :=
    match returned with
    | RetString s => {| content := [TextContent s]; isError := None |}
    | RetContent c => {| content := [c]; isError := None |}
    | RetResult r => r
    end in
  run_response (call_tool tools auth request)
  = Some (N.max (exec_returns ex) t,
          Returns match ContentResultZodSchema_issues built with
                  | None => built
                  | Some issues =>
                      {| content := [TextContent ("Error: " ++ issues)];
                         isError := Some true |}
                  end).
Proof using Type.
  intros Hin Hnd Hname Hvalid ex Hsettles Htimer built.
  rewrite (call_tool_validated tools auth request tool args) by done.
  cbn. fold ex.
  rewrite (await_execution_settled _ _ t (Resolved returned)) by done.
  cbn. unfold ContentResultZodSchema_parse.
  change (normalize returned) with built.
  by destruct (ContentResultZodSchema_issues built).
Qed.

(** X5.  Every progress report of the tool is forwarded, in order and
    with its time, as a progress notification that carries the progress
    token of the request; nothing else becomes a progress notification.
    This holds whether or not the timeout has run out. *)
Theorem call_tool_forwards_progress tools auth request tool args :
  tool ∈ tools → NoDup (tool_name <$> tools) →
  req_name request = tool_name tool →
  match tool_parameters tool with
  | Some parameters => validate parameters (req_arguments request) = Value args
  | None => args = VUndefined
  end →
  progress_notifications (run_notifications (call_tool tools auth request))
  = (λ c, (c.1, c.2, req_progressToken request))
      <$> progress_calls (exec_calls (tool_execute tool args auth)).
Proof using Type.
  intros Hin Hnd Hname Hvalid.
  rewrite (call_tool_validated tools auth request tool args) by done.
  cbn. induction (exec_calls (tool_execute tool args auth)) as [|[time c] calls IH];
    [done|].
  unfold progress_notifications, progress_calls in *. cbn.
  destruct c; cbn; by rewrite IH.
Qed.

(** ** The logging level *)

(** X6.  Only set-level requests change a session: after any requests
    the logging level is the one of the last set-level request, or the
    initial level if there was none, and every other field of the session
    is as before. *)
Theorem serve_logging_level reg s rs :
  let s' := (serve reg s rs).1 in
  loggingLevel s'
  = foldl (λ level r, match r with SetLevel l => l | _ => level end)
          (loggingLevel s) rs
  ∧ auth s' = auth s ∧ clientCapabilities s' = clientCapabilities s
  ∧ roots s' = roots s ∧ transport s' = transport s
  ∧ pingInterval s' = pingInterval s ∧ pingConfig s' = pingConfig s.
Proof using Type.
  revert s. induction rs as [|r rs IH]; intros s; [done|]. cbn [serve foldl].
  destruct (handle reg s r) as [s1 out] eqn:Hh.
  specialize (IH s1). destruct (serve reg s1 rs) as [s2 outs]. cbn in *.
  destruct IH as (-> & -> & -> & -> & -> & -> & ->).
  by destruct r; inversion Hh.
Qed.

(** ** Further facts about completion *)


(** X7.  An argument's completer decides the completion, also when the
    argument declares an enumeration as well: the answer is the
    completer's result if it has at most 100 values, a schema error if it
    has more, and the completer's own error if it throws. *)
Theorem complete_prompt_argument_completer reg request name inputPrompt
    argument completer :
  complete_ref request = ref_prompt name →
  inputPrompt ∈ reg_prompts reg →
  NoDup (prompt_name <$> reg_prompts reg) →
  prompt_name inputPrompt = name →
  argument ∈ default [] (prompt_arguments inputPrompt) →
  NoDup (arg_name <$> default [] (prompt_arguments inputPrompt)) →
  arg_name argument = complete_argument_name request →
  arg_complete argument = Some completer →
  complete (session_prompts reg) (session_resourceTemplates reg) request
  = match completer (complete_argument_value request) with
    | Resolved completion =>
        if decide (length (values completion) ≤ 100)%nat
        then Returns completion else Throws ZodError
    | Rejected e => Throws (Uncaught e)
    end.
Proof using Type.
  intros Href Hin Hnd Hname Harg Hargs Hargname Hsome.
  unfold complete. rewrite Href. unfold session_prompts.
  rewrite foldl_addPrompt, app_nil_l, find_fmap. cbn.
  rewrite <- Hname, (find_unique prompt_name) by done. cbn.
  unfold prompt_completer. rewrite <- Hargname.
  by rewrite completers_of_lookup, Hsome by done.
Qed.


Lemma complete_unknown_prompt reg request name :
  complete_ref request = ref_prompt name →
  (∀ p, p ∈ reg_prompts reg → prompt_name p ≠ name) →
  complete (session_prompts reg) (session_resourceTemplates reg) request
  = Throws (UnexpectedStateError "Unknown prompt").
Proof using Type.
  intros Href Hnone. unfold complete, session_prompts. rewrite Href.
  rewrite foldl_addPrompt, app_nil_l, find_fmap. cbn.
  by rewrite (find_absent prompt_name).
Qed.

(** X9.  A completion request fails with a state error when it refers
    to a prompt name that is not registered ("Unknown prompt") or to a
    URI template that is not registered ("Unknown resource"). *)
Theorem complete_unknown_reference reg request :
  (∀ name, complete_ref request = ref_prompt name →
     (∀ p, p ∈ reg_prompts reg → prompt_name p ≠ name) →
     complete (session_prompts reg) (session_resourceTemplates reg) request
     = Throws (UnexpectedStateError "Unknown prompt"))
  ∧ (∀ uri, complete_ref request = ref_resource uri →
       (∀ t, t ∈ reg_resourcesTemplates reg → template_uriTemplate t ≠ uri) →
       complete (session_prompts reg) (session_resourceTemplates reg) request
       = Throws (UnexpectedStateError "Unknown resource")).
Proof using Type.
  split.
  - intros name Href Hnone. by apply (complete_unknown_prompt _ _ name).
  - unfold complete. intros uri -> Hnone. unfold session_resourceTemplates.
    rewrite foldl_addResourceTemplate, app_nil_l, find_fmap. cbn.
    by rewrite (find_absent template_uriTemplate).
Qed.

(** ** Further facts about prompts and resources *)

Lemma find_first {A} (P : A → bool) (before after : list A) (x : A) :
  (∀ y, y ∈ before → P y = false) → P x = true →
  find P (before ++ x :: after) = Some x.
Proof using Type.
  induction before as [|y before IH]; intros Hbefore Hx; cbn.
  - by rewrite Hx.
  - rewrite Hbefore by left. apply IH; [|done].
    intros z Hz. apply Hbefore. by right.
Qed.

Lemma find_skips {A} (P : A → bool) (before l : list A) :
  (∀ y, y ∈ before → P y = false) → find P (before ++ l) = find P l.
Proof using Type.
  induction before as [|y before IH]; intros Hbefore; [done|]. cbn.
  rewrite Hbefore by left. apply IH. intros z Hz. apply Hbefore. by right.
Qed.

(** X10.  When required arguments are missing, get-prompt names the
    first of them in the order of declaration, and fails before it would
    call [load].  An argument is missing when the supplied object neither
    has it nor inherits its name from [Object.prototype], and when no
    object is supplied. *)
Theorem get_prompt_names_first_missing prompts request prompt before argument after :
  prompt ∈ prompts → NoDup (prompt_name <$> prompts) →
  prompt_name prompt = get_name request →
  prompt_arguments prompt = Some (before ++ argument :: after)%list →
  let found name :=
    match get_arguments request with
    | Some arguments => is_Some (arguments !! name) ∨ name ∈ Object_prototype
    | None => False
    end in
  (∀ a, a ∈ before → arg_required a = Some true → found (arg_name a)) →
  arg_required argument = Some true → ¬ found (arg_name argument) →
  get_prompt prompts request
  = Throws (McpError InvalidRequest
              ("Missing required argument: " ++ arg_name argument)).
Proof using Type.
  intros Hin Hnd Hname Hargs found Hbefore Hreq Hmissing.
  unfold get_prompt. rewrite <- Hname, (find_unique prompt_name) by done.
  rewrite Hargs. cbn [default].
  rewrite (find_first _ before after argument); [done| |].
  - intros a Ha. unfold missing_required.
    destruct (arg_required a) as [[]|] eqn:Hr; [|done..].
    specialize (Hbefore a Ha Hr). unfold found in Hbefore.
    destruct (get_arguments request); [|done].
    by apply negb_false_iff, js_in_found.
  - unfold missing_required. rewrite Hreq. unfold found in Hmissing.
    destruct (get_arguments request); [|done].
    apply negb_true_iff, not_true_is_false. by rewrite js_in_found.
Qed.



(** ** Registrations after a session was created *)

Lemma handle_live_same reg s r : handle_live reg reg s r = handle reg s r.
Proof using Type. by destruct r. Qed.

(** X13.  A prompt that the server registers after a session was
    created, under a new name, is served by get-prompt of that session
    if the server had a prompt before, since the handler reads the
    server's array; it cannot be completed, since completion reads the session's
    own copy: the request fails with "Unknown prompt".  If the server had
    no prompt when the session was created, get-prompt has no handler. *)
Theorem prompt_registered_later created live s added prompt request completion :
  reg_prompts live = (reg_prompts created ++ added)%list →
  NoDup (prompt_name <$> reg_prompts live) →
  prompt ∈ added →
  get_name request = prompt_name prompt →
  complete_ref completion = ref_prompt (prompt_name prompt) →
  (handle_live created live s (GetPrompt request)).2
  = (if is_empty (reg_prompts created) then no_handler
     else PromptResult (get_prompt [prompt] request))
  ∧ (handle_live created live s (Complete completion)).2
    = CompletionResult (Throws (UnexpectedStateError "Unknown prompt")).
Proof using Type.
  intros Hlive Hnd Hin Hname Href. cbn. split.
  - destruct (is_empty (reg_prompts created)); [done|]. f_equal.
    unfold get_prompt. rewrite Hname, Hlive.
    rewrite Hlive, fmap_app in Hnd. apply NoDup_app in Hnd as (Hnd1 & Hdisj & Hnd2).
    assert (Hfresh : ∀ p, p ∈ reg_prompts created → prompt_name p ≠ prompt_name prompt).
    { intros p Hp Heq. apply (Hdisj (prompt_name p)).
      - by apply list_elem_of_fmap_2.
      - rewrite Heq. by apply list_elem_of_fmap_2. }
    rewrite find_skips, (find_unique prompt_name) by
      (done || (intros p Hp; by apply bool_decide_eq_false_2, Hfresh)).
    cbn. by rewrite bool_decide_eq_true_2.
  - f_equal. apply (complete_unknown_prompt _ _ _ Href).
    intros p Hp Heq.
    rewrite Hlive, fmap_app in Hnd. apply NoDup_app in Hnd as (_ & Hdisj & _).
    apply (Hdisj (prompt_name p)).
    + by apply list_elem_of_fmap_2.
    + rewrite Heq. by apply list_elem_of_fmap_2.
Qed.
End Session.

(** ** Connecting a session *)

(** The polling loop asks, waits 100ms and asks again; it stops at the
    first answer or when ten attempts are used up. *)
Lemma poll_capabilities_shape peer attempt :
  ∃ k,
    (poll_capabilities peer attempt).2
    = (concat (replicate k [getClientCapabilities; delay 100])
       ++ match (poll_capabilities peer attempt).1 with
          | Some _ => [getClientCapabilities]
          | None => []
          end)%list
    ∧ match (poll_capabilities peer attempt).1 with
      | Some _ => k < 10 - attempt
      | None => k = 10 - attempt
      end.
Proof.
  funelim (poll_capabilities peer attempt).
  - exists 0. cbn. split; [done|lia].
  - exists 0. cbn. split; [done|lia].
  - destruct H as (k & Htrace & Hk). exists (S k). cbn. rewrite Htrace.
    split; [done|].
    destruct (poll_capabilities peer (S attempt)).1; lia.
Qed.

Lemma attempts_app l1 l2 : attempts (l1 ++ l2) = attempts l1 + attempts l2.
Proof. unfold attempts. by rewrite List.filter_app, length_app. Qed.

Lemma attempts_rounds k :
  attempts (concat (replicate k [getClientCapabilities; delay 100])) = k.
Proof.
  induction k as [|k IH]; [done|].
  cbn [replicate concat]. by rewrite attempts_app, IH.
Qed.

Lemma poll_capabilities_attempts peer attempt :
  (attempts (poll_capabilities peer attempt).2 ≤ 10 - attempt)%nat.
Proof.
  destruct (poll_capabilities_shape peer attempt) as (k & -> & Hk).
  rewrite attempts_app, attempts_rounds.
  destruct (poll_capabilities peer attempt).1; cbn; lia.
Qed.

Lemma poll_capabilities_none peer attempt :
  (∀ n, n < 10 → peer_capabilities peer n = None) →
  poll_capabilities peer attempt
  = (None, concat (replicate (10 - attempt) [getClientCapabilities; delay 100])).
Proof.
  intros Hnone. funelim (poll_capabilities peer attempt).
  - by replace (10 - attempt) with 0 by lia.
  - rewrite Hnone in Heq by done. congruence.
  - rewrite H by done. cbn.
    by replace (10 - attempt) with (S (10 - S attempt)) by lia.
Qed.

Lemma fetch_roots_attempts peer s : attempts (fetch_roots peer s).2 = 0.
Proof.
  unfold fetch_roots.
  destruct (clientCapabilities s ≫= roots_listChanged) as [[]|]; [|done..].
  destruct (peer_has_listRoots peer); [|done].
  destruct (peer_listRoots peer) as [|f]; [done|].
  by destruct (is_MethodNotFound f).
Qed.

Lemma start_ping_attempts s t : attempts (start_ping s t).2 = 0.
Proof.
  unfold start_ping. destruct (clientCapabilities s); [|done].
  destruct (getPingConfig (pingConfig s) t) as [[enabled ms] level].
  by destruct enabled.
Qed.

(** C8.  [connect] asks for the client's capabilities at most ten times.
    When the session has none and all ten attempts find none, each
    attempt is followed by a 100ms delay, and [connect] then completes:
    the session is bound to the transport, it has no capabilities and
    is otherwise unchanged, and the only further effect is the warning on
    the console. *)
Theorem connect_without_capabilities peer s t :
  transport s = None → peer_connect peer = None →
  (attempts (connect peer s t).2 ≤ 10)%nat
  ∧ (clientCapabilities s = None →
     (∀ n, n < 10 → peer_capabilities peer n = None) →
     ∃ s',
       connect peer s t
       = (connected s',
          server_connect
            :: concat (replicate 10 [getClientCapabilities; delay 100])
            ++ [console_warn "[FastMCP warning] could not infer client capabilities"])
       ∧ transport s' = Some t
       ∧ clientCapabilities s' = None
       ∧ auth s' = auth s ∧ loggingLevel s' = loggingLevel s
       ∧ pingConfig s' = pingConfig s ∧ pingInterval s' = pingInterval s
       ∧ roots s' = roots s).
Proof.
  intros Hfree Hok. unfold connect. rewrite Hfree, Hok. split.
  - destruct (fetch_roots _ _) as [s1 fetched] eqn:Hfetch.
    destruct (start_ping _ _) as [s2 pinged] eqn:Hping.
    cbn [snd]. change (server_connect :: ?l) with ([server_connect] ++ l)%list.
    rewrite !attempts_app.
    pose proof (poll_capabilities_attempts peer 0) as Hpoll.
    pose proof (fetch_roots_attempts peer
      match (poll_capabilities peer 0).1 with
      | Some c => with_capabilities (with_transport s t) c
      | None => with_transport s t
      end) as Hf.
    rewrite Hfetch in Hf. cbn [snd] in Hf.
    pose proof (start_ping_attempts s1 t) as Hp. rewrite Hping in Hp. cbn [snd] in Hp.
    rewrite Hf, Hp.
    assert (attempts match clientCapabilities
                             match (poll_capabilities peer 0).1 with
                             | Some c => with_capabilities (with_transport s t) c
                             | None => with_transport s t
                             end with
                     | Some _ => []
                     | None => [console_warn
                                  "[FastMCP warning] could not infer client capabilities"]
                     end = 0) as ->.
    { by destruct (clientCapabilities _). }
    cbn. lia.
  - intros Hnocaps Hnone. exists (with_transport s t).
    split; [|by repeat split].
    rewrite poll_capabilities_none by done. cbn.
    unfold fetch_roots, start_ping. cbn. rewrite Hnocaps. simpl.
    by rewrite Hnocaps.
Qed.

(** ** Sessions of the server *)

Lemma onClose_keeps_sessions server session :
  sessions (onClose server session) = sessions server.
Proof. done. Qed.

(** C3 (what the code does).  After client A connected and disconnected
    and client B connected, the list of sessions is [A; B]: closing a
    connection emits the disconnect event and leaves the list alone. *)
Theorem sessions_after_reconnect (A B : SessionId) :
  let server :=
    listener_run new_FastMCP
      [client_connects A; connection_closes A; client_connects B] in
  sessions server = [A; B]
  ∧ emitted server = [connect_event A; disconnect_event A; connect_event B]
  ∧ sessions (listener_run new_FastMCP [client_connects A; connection_closes A])
    = [A].
Proof. done. Qed.

(** ** The theorems at concrete registrations *)

Lemma call_tool_without_parameters_witness :
  tool_parameters echo_tool = None
  ∧ run_invoked (call_tool conforms [echo_tool] VUndefined
                   (call "echo" (VObj {["a" := VNum 1]})))
    = Some ("echo", VUndefined, VUndefined)
  ∧ run_response (call_tool conforms [echo_tool] VUndefined
                    (call "echo" (VObj {["a" := VNum 1]})))
    = Some (0%N, Returns {| content := [TextContent "undefined"];
                            isError := None |}).
Proof.
  split; [reflexivity|].
  destruct (call_tool_without_parameters conforms [echo_tool] VUndefined
              (call "echo" (VObj {["a" := VNum 1]})) echo_tool)
    as (Hinvoked & _ & Hresponse & _).
  - apply list_elem_of_here.
  - apply NoDup_singleton.
  - reflexivity.
  - reflexivity.
  - split; [exact Hinvoked|]. rewrite Hresponse. reflexivity.
Defined.

Lemma call_tool_execute_throws_witness :
  run_response (call_tool conforms [failing_tool (UserError "No such student")]
                  VUndefined (call "fail" VUndefined))
  = Some (0%N, Returns {| content := [TextContent "No such student"];
                          isError := Some true |})
  ∧ run_response (call_tool conforms
                    [failing_tool (ErrorObject "TypeError" "fetch failed")]
                    VUndefined (call "fail" VUndefined))
    = Some (0%N, Returns {| content := [TextContent "Error: TypeError: fetch failed"];
                            isError := Some true |})
  ∧ run_response (call_tool conforms [late_tool] VUndefined (call "late" VUndefined))
    = Some (1000%N,
            Returns {| content := [TextContent "Tool execution timed out after 1000ms"];
                       isError := Some true |}).
Proof.
  split; [|split].
  - destruct (call_tool_execute_throws conforms no_converter substring_search
                simple_fromUri simple_fill
                (tools_only [failing_tool (UserError "No such student")])
                fresh_session (call "fail" VUndefined)
                (failing_tool (UserError "No such student")) VUndefined 0%N
                (UserError "No such student") []) as (H & _).
    + apply list_elem_of_here.
    + apply NoDup_singleton.
    + reflexivity.
    + reflexivity.
    + reflexivity.
    + apply H. intros ms Hms. discriminate Hms.
  - destruct (call_tool_execute_throws conforms no_converter substring_search
                simple_fromUri simple_fill
                (tools_only [failing_tool (ErrorObject "TypeError" "fetch failed")])
                fresh_session (call "fail" VUndefined)
                (failing_tool (ErrorObject "TypeError" "fetch failed")) VUndefined 0%N
                (ErrorObject "TypeError" "fetch failed") []) as (H & _).
    + apply list_elem_of_here.
    + apply NoDup_singleton.
    + reflexivity.
    + reflexivity.
    + reflexivity.
    + apply H. intros ms Hms. discriminate Hms.
  - destruct (call_tool_execute_throws conforms no_converter substring_search
                simple_fromUri simple_fill (tools_only [late_tool]) fresh_session
                (call "late" VUndefined) late_tool VUndefined 3000%N
                (UserError "late") []) as (_ & H & _).
    + apply list_elem_of_here.
    + apply NoDup_singleton.
    + reflexivity.
    + reflexivity.
    + reflexivity.
    + apply (H 1000%N).
      * reflexivity.
      * discriminate.
      * vm_compute. discriminate.
      * left. reflexivity.
Defined.

(** C1 as stated fails: this tool throws a [UserError] after three
    seconds, the timer of its timeout of one second comes first, and the
    text of the answer is the timeout's message, not the message of the
    error thrown. *)
Lemma call_tool_late_throw :
  let run := call_tool conforms [late_tool] VUndefined (call "late" VUndefined) in
  exec_settles (tool_execute late_tool VUndefined VUndefined)
  = Some (3000%N, Rejected (UserError "late"))
  ∧ run_response run
    = Some (1000%N,
            Returns {| content := [TextContent "Tool execution timed out after 1000ms"];
                       isError := Some true |})
  ∧ ∀ t, run_response run
         ≠ Some (t, Returns {| content := [TextContent "late"];
                               isError := Some true |}).
Proof.
  split; [reflexivity|]. split; [reflexivity|].
  intros t. vm_compute. intros H. discriminate H.
Qed.

Lemma call_tool_timeout_witness :
  tool_timeoutMs late_tool = Some 1000%N
  ∧ run_response (call_tool conforms [late_tool] VUndefined (call "late" VUndefined))
    = Some (1000%N,
            Returns {| content := [TextContent "Tool execution timed out after 1000ms"];
                       isError := Some true |})
  ∧ run_notifications (call_tool conforms [late_tool] VUndefined (call "late" VUndefined))
    = [(2000%N, LoggingMessage info "still running" VUndefined)]
  ∧ run_response (call_tool conforms [zero_timeout_tool] VUndefined
                    (call "slow" VUndefined))
    = Some (3000%N, Returns {| content := [TextContent "3"]; isError := None |})
  ∧ run_response (call_tool conforms [patient_tool] VUndefined
                    (call "patient" VUndefined))
    = Some (1%N,
            Returns {| content :=
                         [TextContent "Tool execution timed out after 3000000000ms"];
                       isError := Some true |}).
Proof.
  split; [reflexivity|].
  destruct (call_tool_timeout conforms no_converter substring_search
              simple_fromUri simple_fill (tools_only [late_tool]) fresh_session
              (call "late" VUndefined) late_tool VUndefined [])
    as (Htimer & _ & _ & Hnotifications & _).
  - apply list_elem_of_here.
  - apply NoDup_singleton.
  - reflexivity.
  - reflexivity.
  - destruct (Htimer 1000%N) as (_ & _ & Hresponse).
    + reflexivity.
    + discriminate.
    + vm_compute. discriminate.
    + left. reflexivity.
    + split; [exact Hresponse|]. split; [exact Hnotifications|].
      destruct (call_tool_timeout conforms no_converter substring_search
                  simple_fromUri simple_fill (tools_only [zero_timeout_tool])
                  fresh_session (call "slow" VUndefined) zero_timeout_tool
                  VUndefined []) as (_ & Hzero & _).
      * apply list_elem_of_here.
      * apply NoDup_singleton.
      * reflexivity.
      * reflexivity.
      * destruct Hzero as [_ Hanswer]; [left; reflexivity|].
        split; [exact Hanswer|].
        destruct (call_tool_timeout conforms no_converter substring_search
                    simple_fromUri simple_fill (tools_only [patient_tool])
                    fresh_session (call "patient" VUndefined) patient_tool
                    VUndefined []) as (Hpatient & _).
        -- apply list_elem_of_here.
        -- apply NoDup_singleton.
        -- reflexivity.
        -- reflexivity.
        -- destruct (Hpatient 3000000000%N) as (_ & _ & Hearly).
           ++ reflexivity.
           ++ discriminate.
           ++ vm_compute. discriminate.
           ++ left. reflexivity.
           ++ exact Hearly.
Defined.

(** C2 as stated fails: this tool declares [timeoutMs: 0] and settles
    after three seconds.  A timer of 0ms would come first, but the
    handler sets no timer and answers with the tool's result. *)
Lemma call_tool_zero_timeout :
  let run := call_tool conforms [zero_timeout_tool] VUndefined
               (call "slow" VUndefined) in
  tool_timeoutMs zero_timeout_tool = Some 0%N
  ∧ exec_settles (tool_execute zero_timeout_tool VUndefined VUndefined)
    = Some (3000%N, Resolved (RetString "3"))
  ∧ run_timer run = None
  ∧ run_response run
    = Some (3000%N, Returns {| content := [TextContent "3"]; isError := None |}).
Proof. repeat split. Qed.

Lemma list_tools_reports_witness :
  ∃ info,
    list_tools no_converter [echo_tool] !! 0 = Some info
    ∧ info_name info = "echo"
    ∧ schema_accepts (λ _ _, true) (info_inputSchema info) (VObj ∅) = true.
Proof.
  destruct (list_tools_reports no_converter [echo_tool] 0 echo_tool)
    as (info & Hinfo & Hname & _ & _ & Hschema).
  - reflexivity.
  - exists info. split; [exact Hinfo|]. split; [exact Hname|].
    cbn in Hschema. destruct Hschema as [_ Haccepts]. by apply Haccepts.
Defined.

(** C4 as stated fails: the schema reported for a tool without
    parameters does not accept the object [{a: 1}]. *)
Lemma list_tools_schema_not_permissive :
  tool_parameters echo_tool = None
  ∧ ∃ info,
      list_tools no_converter [echo_tool] = [info]
      ∧ schema_accepts (λ _ _, true) (info_inputSchema info)
          (VObj {["a" := VNum 1]}) = false.
Proof. split; [reflexivity|]. eexists. split; [reflexivity|]. by vm_compute. Qed.



Lemma read_resource_by_template_witness :
  simple_fromUri "file:///logs/{name}.log" "file:///logs/app.log"
  = Some {["name" := "app"]}
  ∧ read_loaded (read_resource simple_fromUri simple_fill (reg_resources logs_registry)
                   (session_resourceTemplates logs_registry) "file:///logs/app.log")
    = Some (template_loader "file:///logs/{name}.log" {["name" := "app"]}).
Proof.
  split; [reflexivity|].
  destruct (read_resource_by_template simple_fromUri simple_fill logs_registry
              "file:///logs/app.log") as [Hfirst _].
  - intros r Hr. apply list_elem_of_singleton in Hr. rewrite Hr. discriminate.
  - destruct (Hfirst [] logs_template [] {["name" := "app"]}) as [Hloaded _].
    + reflexivity.
    + intros t Ht. by apply elem_of_nil in Ht.
    + reflexivity.
    + exact Hloaded.
Defined.

Lemma read_resource_direct_witness :
  ∃ entries,
    read_reply (read_resource simple_fromUri simple_fill [two_texts] [] "file:///x")
    = Returns entries
    ∧ length entries = 2
    ∧ ∃ entry, entries !! 1 = Some entry
               ∧ entry !! "text" = Some (VStr "b")
               ∧ entry !! "uri" = Some (VStr "file:///x").
Proof.
  destruct (read_resource_direct simple_fromUri simple_fill [two_texts] []
              "file:///x" two_texts) as (_ & _ & Hmany).
  - apply list_elem_of_here.
  - apply NoDup_singleton.
  - reflexivity.
  - destruct (Hmany [{["text" := VStr "a"]}; {["text" := VStr "b"]}])
      as (entries & Hreply & Hlength & Hentries); [reflexivity|].
    exists entries. split; [exact Hreply|]. split; [exact Hlength|].
    destruct (Hentries 1 {["text" := VStr "b"]}) as (entry & Hentry & Hinherits);
      [reflexivity|].
    exists entry. split; [exact Hentry|].
    destruct Hinherits as (Hown & _ & Huri & _). split.
    + apply Hown. reflexivity.
    + apply Huri. reflexivity.
Defined.

Lemma connect_without_capabilities_witness :
  ∃ s',
    connect silent_peer fresh_session {| transport_type := Some "sse" |}
    = (connected s',
       server_connect
         :: concat (replicate 10 [getClientCapabilities; delay 100])
         ++ [console_warn "[FastMCP warning] could not infer client capabilities"])
    ∧ transport s' = Some {| transport_type := Some "sse" |}.
Proof.
  destruct (connect_without_capabilities silent_peer fresh_session
              {| transport_type := Some "sse" |}) as [_ Hconnect].
  - reflexivity.
  - reflexivity.
  - destruct Hconnect as (s' & Hconnected & Hbound & _).
    + reflexivity.
    + intros n Hn. reflexivity.
    + exists s'. split; [exact Hconnected|exact Hbound].
Defined.

Lemma get_prompt_cases_witness :
  get_prompt [git_commit_prompt]
    {| get_name := "git-commit"; get_arguments := Some {["changes" := "x"]} |}
  = Returns
      {| result_description := Some "Generate a Git commit message";
         result_messages :=
           [{| message_content :=
                 TextContent
                   "Generate a concise but descriptive commit message for these changes: x";
               message_role := user |}] |}
  ∧ (∃ message,
       get_prompt [git_commit_prompt]
         {| get_name := "git-commit"; get_arguments := Some ∅ |}
       = Throws (McpError InvalidRequest message))
  ∧ ∃ message,
      get_prompt [git_commit_prompt]
        {| get_name := "git-push"; get_arguments := None |}
      = Throws (McpError MethodNotFound message).
Proof.
  split; [|split].
  - destruct (get_prompt_cases [git_commit_prompt]
                {| get_name := "git-commit";
                   get_arguments := Some {["changes" := "x"]} |}) as [Hfound _].
    + apply NoDup_singleton.
    + destruct (Hfound git_commit_prompt) as [Hloads _].
      * apply list_elem_of_here.
      * reflexivity.
      * apply Hloads; [|reflexivity].
        intros a Ha _. apply list_elem_of_singleton in Ha. rewrite Ha.
        left. exists "x". reflexivity.
  - destruct (get_prompt_cases [git_commit_prompt]
                {| get_name := "git-commit"; get_arguments := Some ∅ |})
      as [Hfound _].
    + apply NoDup_singleton.
    + destruct (Hfound git_commit_prompt) as [_ Hmissing].
      * apply list_elem_of_here.
      * reflexivity.
      * apply (Hmissing {| arg_complete := None;
                           arg_description := Some "Git diff or description of changes";
                           arg_enum := None; arg_name := "changes";
                           arg_required := Some true |}).
        -- apply list_elem_of_here.
        -- reflexivity.
        -- intros [[v Hv]|Hinherited]; [discriminate Hv|].
           revert Hinherited. apply (bool_decide_unpack _). vm_compute. exact I.
  - destruct (get_prompt_cases [git_commit_prompt]
                {| get_name := "git-push"; get_arguments := None |}) as [_ Habsent].
    + apply NoDup_singleton.
    + apply Habsent. intros prompt Hprompt.
      apply list_elem_of_singleton in Hprompt. rewrite Hprompt. discriminate.
Defined.

(** ** Further facts about connecting *)

(** X14.  The ping configuration in force: an explicit [enabled] wins,
    otherwise pings are on exactly for the transports of type sse and
    httpStream; the interval is never zero and is 5000ms unless a
    non-zero one is configured; the log level is debug unless
    configured. *)
Theorem getPingConfig_defaults config t :
  let enabled := (getPingConfig config t).1.1 in
  let intervalMs := (getPingConfig config t).1.2 in
  let logLevel := (getPingConfig config t).2 in
  intervalMs ≠ 0%N
  ∧ (∀ b, config ≫= ping_enabled = Some b → enabled = b)
  ∧ (config ≫= ping_enabled = None →
     enabled = true
     ↔ transport_type t = Some "sse" ∨ transport_type t = Some "httpStream")
  ∧ (∀ ms, config ≫= ping_intervalMs = Some ms → ms ≠ 0%N → intervalMs = ms)
  ∧ (config ≫= ping_intervalMs = None ∨ config ≫= ping_intervalMs = Some 0%N →
     intervalMs = 5000%N)
  ∧ (∀ l, config ≫= ping_logLevel = Some l → logLevel = l)
  ∧ (config ≫= ping_logLevel = None → logLevel = debug).
Proof.
  unfold getPingConfig. cbn [fst snd].
  split; [|split; [|split; [|split; [|split; [|split]]]]].
  - destruct (config ≫= ping_intervalMs) as [ms|]; [|done].
    by destruct (decide (ms = 0%N)).
  - by intros b ->.
  - intros ->. cbn. destruct (transport_type t) as [ty|]; cbn.
    + rewrite orb_true_iff, !bool_decide_eq_true.
      split; (intros [H|H]; [left|right]; congruence).
    + split; [done|by intros [?|?]].
  - intros ms -> Hms. by destruct (decide (ms = 0%N)).
  - by intros [->| ->].
  - by intros l ->.
  - by intros ->.
Qed.

Lemma poll_capabilities_found peer attempt k c :
  (attempt ≤ k)%nat → k < 10 →
  (∀ n, (attempt ≤ n)%nat → n < k → peer_capabilities peer n = None) →
  peer_capabilities peer k = Some c →
  poll_capabilities peer attempt
  = (Some c,
     concat (replicate (k - attempt) [getClientCapabilities; delay 100])
       ++ [getClientCapabilities])%list.
Proof.
  intros Hle Hk Hnone Hsome. funelim (poll_capabilities peer attempt).
  - lia.
  - destruct (decide (attempt = k)) as [->|Hne].
    + rewrite Hsome in Heq. injection Heq as ->.
      by replace (k - k) with 0 by lia.
    + rewrite Hnone in Heq by lia. done.
  - destruct (decide (attempt = k)) as [->|Hne]; [congruence|].
    rewrite (H k c); [|lia|done|intros; apply Hnone; lia|done]. cbn.
    by replace (k - attempt) with (S (k - S attempt)) by lia.
Qed.

(** The fields that the steps of [connect] leave alone. *)
Lemma fetch_roots_keeps peer s :
  let s' := (fetch_roots peer s).1 in
  transport s' = transport s ∧ clientCapabilities s' = clientCapabilities s
  ∧ auth s' = auth s ∧ loggingLevel s' = loggingLevel s
  ∧ pingConfig s' = pingConfig s ∧ pingInterval s' = pingInterval s.
Proof.
  unfold fetch_roots.
  destruct (clientCapabilities s ≫= roots_listChanged) as [[]|]; [|done..].
  destruct (peer_has_listRoots peer); [|done].
  destruct (peer_listRoots peer); cbn; repeat split.
Qed.

Lemma start_ping_keeps s t :
  let s' := (start_ping s t).1 in
  transport s' = transport s ∧ clientCapabilities s' = clientCapabilities s
  ∧ auth s' = auth s ∧ loggingLevel s' = loggingLevel s
  ∧ pingConfig s' = pingConfig s ∧ roots s' = roots s.
Proof.
  unfold start_ping. destruct (clientCapabilities s) eqn:Hcaps;
    [|by cbn; rewrite Hcaps].
  destruct (getPingConfig (pingConfig s) t) as [[enabled ms] level].
  destruct enabled; cbn; rewrite ?Hcaps; repeat split.
Qed.

Ltac not_in_effects H :=
  repeat (apply elem_of_cons in H as [H|H]; [discriminate H|]);
  by apply elem_of_nil in H.

Lemma fetch_roots_no_warning peer s m : console_warn m ∉ (fetch_roots peer s).2.
Proof.
  unfold fetch_roots. intros H.
  destruct (clientCapabilities s ≫= roots_listChanged) as [[]|];
    [|not_in_effects H..].
  destruct (peer_has_listRoots peer); [|not_in_effects H].
  destruct (peer_listRoots peer) as [l|f]; [not_in_effects H|].
  cbn in H. destruct (is_MethodNotFound f); not_in_effects H.
Qed.

Lemma start_ping_no_warning s t m : console_warn m ∉ (start_ping s t).2.
Proof.
  unfold start_ping. intros H.
  destruct (clientCapabilities s); [|not_in_effects H].
  destruct (getPingConfig (pingConfig s) t) as [[enabled ms] level].
  destruct enabled; not_in_effects H.
Qed.

(** [connect] on a session that is free and whose SDK server connects, as
    one equation. *)
Lemma connect_steps peer s t :
  transport s = None → peer_connect peer = None →
  let polled := poll_capabilities peer 0 in
  let s1 := match polled.1 with
            | Some c => with_capabilities (with_transport s t) c
            | None => with_transport s t
            end in
  let s2 := (fetch_roots peer s1).1 in
  connect peer s t
  = (connected (start_ping s2 t).1,
     server_connect
       :: polled.2
       ++ match clientCapabilities s1 with
          | Some _ => []
          | None => [console_warn "[FastMCP warning] could not infer client capabilities"]
          end
       ++ (fetch_roots peer s1).2 ++ (start_ping s2 t).2).
Proof.
  intros Hfree Hok. unfold connect. rewrite Hfree, Hok. cbn zeta.
  destruct (fetch_roots _ _) as [s2 fetched]. cbn [fst snd].
  by destruct (start_ping s2 t) as [s3 pinged].
Qed.

(** X15.  When the client's capabilities first become available at the
    attempt number [k] (counting from 0, below 10), [connect] has asked
    [k + 1] times with a 100ms delay after each of the [k] failures,
    stores these capabilities in the session, and prints no warning. *)
Theorem connect_with_capabilities peer s t k c :
  transport s = None → peer_connect peer = None →
  k < 10 →
  (∀ n, n < k → peer_capabilities peer n = None) →
  peer_capabilities peer k = Some c →
  ∃ s' rest,
    connect peer s t
    = (connected s',
       server_connect
         :: concat (replicate k [getClientCapabilities; delay 100])
         ++ [getClientCapabilities] ++ rest)
    ∧ clientCapabilities s' = Some c
    ∧ transport s' = Some t
    ∧ attempts rest = 0
    ∧ ∀ m, console_warn m ∉ rest.
Proof.
  intros Hfree Hok Hk Hnone Hsome.
  rewrite connect_steps by done.
  rewrite (poll_capabilities_found peer 0 k c);
    [|lia|done|intros; apply Hnone; lia|done].
  cbn [fst snd]. replace (k - 0) with k by lia.
  set (s1 := with_capabilities (with_transport s t) c).
  exists (start_ping (fetch_roots peer s1).1 t).1,
         ((fetch_roots peer s1).2 ++ (start_ping (fetch_roots peer s1).1 t).2)%list.
  split; [by rewrite <- app_assoc|].
  destruct (start_ping_keeps (fetch_roots peer s1).1 t) as (Ht & Hc & _).
  destruct (fetch_roots_keeps peer s1) as (Ht1 & Hc1 & _).
  cbn in Ht, Hc, Ht1, Hc1. rewrite Hc, Hc1, Ht, Ht1. cbn.
  split; [done|]. split; [done|]. split.
  - by rewrite attempts_app, fetch_roots_attempts, start_ping_attempts.
  - intros m [Hm|Hm]%elem_of_app.
    + by apply fetch_roots_no_warning in Hm.
    + by apply start_ping_no_warning in Hm.
Qed.

Lemma connect_binds peer s t s' effects :
  connect peer s t = (connected s', effects) →
  transport s = None ∧ peer_connect peer = None ∧ transport s' = Some t
  ∧ auth s' = auth s ∧ loggingLevel s' = loggingLevel s.
Proof.
  intros Hconnect.
  destruct (transport s) eqn:Hfree.
  { unfold connect in Hconnect. by rewrite Hfree in Hconnect. }
  destruct (peer_connect peer) eqn:Hok.
  { unfold connect in Hconnect. by rewrite Hfree, Hok in Hconnect. }
  rewrite connect_steps in Hconnect by done. injection Hconnect as <- _.
  split; [done|]. split; [done|].
  destruct (start_ping_keeps
              (fetch_roots peer
                 match (poll_capabilities peer 0).1 with
                 | Some c => with_capabilities (with_transport s t) c
                 | None => with_transport s t
                 end).1 t) as (-> & _ & -> & -> & _).
  destruct (fetch_roots_keeps peer
              match (poll_capabilities peer 0).1 with
              | Some c => with_capabilities (with_transport s t) c
              | None => with_transport s t
              end) as (-> & _ & -> & -> & _).
  by destruct (poll_capabilities peer 0).1.
Qed.

(** X16.  A session connects once: after [connect] has succeeded, any
    further [connect] on the session throws "Server is already
    connected" and does nothing else. *)
Theorem connect_twice peer s t s' effects peer' t' :
  connect peer s t = (connected s', effects) →
  connect peer' s' t'
  = (connect_throws (UnexpectedStateError "Server is already connected"), []).
Proof.
  intros (_ & _ & Hbound & _)%connect_binds. unfold connect. by rewrite Hbound.
Qed.

(** X17.  The initial roots fetch cannot fail [connect].  On a free
    session whose SDK server connects, [connect] succeeds whatever the
    client answers to [listRoots].  When the capabilities that the
    polling finds announce roots with [listChanged] and the server has
    [listRoots], the roots are fetched: if the client lists them, they
    become the roots of the session; if [listRoots] fails, with
    MethodNotFound or with anything else, the roots of the session stay
    as they were.  The roots change in no other way. *)
Theorem connect_roots peer s t :
  transport s = None → peer_connect peer = None →
  ∃ s' effects,
    connect peer s t = (connected s', effects)
    ∧ (∀ f, peer_listRoots peer = roots_fault f → roots s' = roots s)
    ∧ (∀ k c l, k < 10 →
         (∀ n, n < k → peer_capabilities peer n = None) →
         peer_capabilities peer k = Some c →
         roots_listChanged c = Some true →
         peer_has_listRoots peer = true →
         peer_listRoots peer = roots_listed l →
         roots s' = l ∧ listRoots ∈ effects)
    ∧ (∀ l, roots s' ≠ roots s →
            peer_listRoots peer = roots_listed l
            → roots s' = l ∧ listRoots ∈ effects
              ∧ clientCapabilities s' ≫= roots_listChanged = Some true).
Proof.
  intros Hfree Hok. rewrite connect_steps by done. eexists _, _. split; [done|].
  set (s1 := match (poll_capabilities peer 0).1 with
             | Some c => with_capabilities (with_transport s t) c
             | None => with_transport s t
             end).
  assert (Hs1 : roots s1 = roots s) by (subst s1; by destruct (poll_capabilities peer 0).1).
  destruct (start_ping_keeps (fetch_roots peer s1).1 t) as (_ & Hcaps & _ & _ & _ & Hroots).
  cbn in Hroots, Hcaps. rewrite Hroots, Hcaps.
  destruct (fetch_roots_keeps peer s1) as (_ & Hcaps1 & _). cbn in Hcaps1.
  rewrite Hcaps1. split; [|split].
  - intros f Hf. unfold fetch_roots. rewrite Hf.
    destruct (clientCapabilities s1 ≫= roots_listChanged) as [[]|]; [|done..].
    by destruct (peer_has_listRoots peer).
  - intros k c l Hk Hnone Hsome Hchanged Hhas Hl.
    assert (Hpoll : (poll_capabilities peer 0).1 = Some c).
    { rewrite (poll_capabilities_found peer 0 k c);
        [done|lia|done|intros; apply Hnone; lia|done]. }
    assert (Hfetch : fetch_roots peer s1 = (with_roots s1 l, [listRoots])).
    { subst s1. rewrite Hpoll. unfold fetch_roots. cbn.
      by rewrite Hchanged, Hhas, Hl. }
    rewrite Hfetch. split; [done|]. cbn [fst snd].
    apply elem_of_cons. right. rewrite !elem_of_app. right. right. left.
    apply list_elem_of_here.
  - unfold fetch_roots.
    destruct (clientCapabilities s1 ≫= roots_listChanged) as [[]|] eqn:Hchanged;
      cbn; try (intros l Hne; by rewrite Hs1 in Hne).
    destruct (peer_has_listRoots peer);
      cbn; try (intros l Hne; by rewrite Hs1 in Hne).
    destruct (peer_listRoots peer) as [l|f]; cbn.
    + intros l' _ [= <-]. split; [done|]. split; [|done]. set_solver.
    + intros l Hne. by rewrite Hs1 in Hne.
Qed.

(** X18.  With no ping configuration and the client's capabilities
    known, [connect] starts the ping timer exactly for a transport of
    type sse or httpStream, every 5000ms and reporting failures at level
    debug; for any other transport it starts no timer. *)
Theorem connect_default_ping peer s t c :
  transport s = None → peer_connect peer = None →
  peer_capabilities peer 0 = Some c →
  pingConfig s = None →
  ∃ s' effects,
    connect peer s t = (connected s', effects)
    ∧ if bool_decide (transport_type t = Some "sse"
                      ∨ transport_type t = Some "httpStream")
      then pingInterval s' = Some (5000%N, debug) ∧ setInterval 5000 ∈ effects
      else pingInterval s' = pingInterval s ∧ ∀ ms, setInterval ms ∉ effects.
Proof.
  intros Hfree Hok Hcaps Hconfig. rewrite connect_steps by done.
  eexists _, _. split; [done|].
  rewrite (poll_capabilities_found peer 0 0 c); [|lia|lia|intros; lia|done].
  cbn [fst snd replicate concat].
  set (s1 := with_capabilities (with_transport s t) c).
  destruct (fetch_roots_keeps peer s1) as (_ & Hc1 & _ & _ & Hp1 & Hi1).
  cbn in Hc1, Hp1, Hi1.
  assert (Hno : ∀ ms, setInterval ms ∉ (fetch_roots peer s1).2).
  { intros ms H. unfold fetch_roots in H.
    destruct (clientCapabilities s1 ≫= roots_listChanged) as [[]|];
      [|not_in_effects H..].
    destruct (peer_has_listRoots peer); [|not_in_effects H].
    destruct (peer_listRoots peer) as [l|f]; [not_in_effects H|].
    cbn in H. destruct (is_MethodNotFound f); not_in_effects H. }
  unfold start_ping. rewrite Hc1, Hp1, Hconfig.
  unfold getPingConfig. cbn.
  destruct (transport_type t) as [ty|] eqn:Hty; cbn.
  - destruct (bool_decide (ty = "sse") || bool_decide (ty = "httpStream")) eqn:Hon.
    + rewrite bool_decide_eq_true_2.
      * cbn. split; [done|]. set_solver.
      * apply orb_true_iff in Hon as [Hon|Hon];
          apply bool_decide_eq_true in Hon; subst; [by left|by right].
    + rewrite bool_decide_eq_false_2.
      * cbn. split; [by rewrite Hi1|]. intros ms H.
        apply elem_of_cons in H as [H|H]; [discriminate H|].
        apply elem_of_cons in H as [H|H]; [discriminate H|].
        rewrite app_nil_r in H. by apply Hno in H.
      * apply orb_false_iff in Hon as [H1 H2].
        apply bool_decide_eq_false in H1, H2.
        intros [[= ->]|[= ->]]; done.
  - rewrite bool_decide_eq_false_2 by (by intros [?|?]).
    cbn. split; [by rewrite Hi1|]. intros ms H.
    apply elem_of_cons in H as [H|H]; [discriminate H|].
    apply elem_of_cons in H as [H|H]; [discriminate H|].
    rewrite app_nil_r in H. by apply Hno in H.
Qed.

(** ** Further facts about the sessions of the server *)

(** X19.  Over any sequence of connections, rejections and closings,
    the server's list of sessions is the initial list followed by the
    sessions that connected, in order: a closing removes nothing and a
    rejected client adds nothing.  The events emitted are one connect per
    connection and one disconnect per closing, in order, and none for a
    rejected client. *)
Theorem listener_run_sessions server es :
  sessions (listener_run server es)
  = (sessions server
     ++ omap (λ e, match e with
                   | client_connects session => Some session
                   | _ => None
                   end) es)%list
  ∧ emitted (listener_run server es)
    = (emitted server
       ++ omap (λ e, match e with
                     | client_connects session => Some (connect_event session)
                     | connection_closes session => Some (disconnect_event session)
                     | client_rejected _ => None
                     end) es)%list.
Proof.
  unfold listener_run. revert server.
  induction es as [|e es IH]; intros server; cbn.
  - by rewrite !app_nil_r.
  - destruct (IH (listener_step server e)) as [-> ->].
    destruct e; cbn; by rewrite <- ?app_assoc.
Qed.

(** ** The event store *)

Lemma Map_get_set_eq k v m : Map_get k (Map_set k v m) = Some v.
Proof.
  unfold Map_get. induction m as [|[k' v'] m IH]; cbn.
  - by rewrite bool_decide_eq_true_2.
  - destruct (decide (k' = k)) as [->|Hne]; cbn.
    + by rewrite bool_decide_eq_true_2.
    + by rewrite bool_decide_eq_false_2.
Qed.

Lemma Map_get_set_ne k k' v m : k' ≠ k → Map_get k' (Map_set k v m) = Map_get k' m.
Proof.
  intros Hne. unfold Map_get. induction m as [|[k0 v0] m IH]; cbn.
  - by rewrite bool_decide_eq_false_2.
  - destruct (decide (k0 = k)) as [->|Hne0]; cbn.
    + by rewrite !bool_decide_eq_false_2.
    + destruct (bool_decide (k0 = k')); [done|apply IH].
Qed.

Lemma Map_set_keys k v m :
  (Map_set k v m).*1 = if bool_decide (k ∈ m.*1) then m.*1 else (m.*1 ++ [k])%list.
Proof.
  induction m as [|[k0 v0] m IH]; cbn; [done|].
  destruct (decide (k0 = k)) as [->|Hne]; cbn.
  - rewrite bool_decide_eq_true_2; [done|left].
  - rewrite IH. destruct (bool_decide (k ∈ m.*1)) eqn:Hin.
    + apply bool_decide_eq_true in Hin.
      rewrite bool_decide_eq_true_2; [done|by right].
    + apply bool_decide_eq_false in Hin.
      rewrite bool_decide_eq_false_2; [done|].
      intros [?|?]%elem_of_cons; congruence.
Qed.

Lemma Map_set_well_keyed k v m : well_keyed m → well_keyed (Map_set k v m).
Proof.
  unfold well_keyed. intros Hnd. rewrite Map_set_keys.
  destruct (bool_decide (k ∈ m.*1)) eqn:Hin; [done|].
  apply bool_decide_eq_false in Hin.
  apply NoDup_app. split; [done|]. split; [|apply NoDup_singleton].
  intros x Hx ->%list_elem_of_singleton. done.
Qed.

(** X20.  Storing an event returns its id and keeps the event under
    that id with its message and stream; the events under other ids are
    as before, and the ids stay distinct. *)
Theorem storeEvent_get events streamId message now random :
  let eventId := (storeEvent events streamId message now random).1 in
  let events' := (storeEvent events streamId message now random).2 in
  eventId = streamId ++ "_" ++ pretty now ++ "_" ++ random
  ∧ Map_get eventId events'
    = Some {| event_message := message; event_streamId := streamId |}
  ∧ (∀ other, other ≠ eventId → Map_get other events' = Map_get other events)
  ∧ (well_keyed events → well_keyed events').
Proof.
  cbn. split; [done|]. split; [apply Map_get_set_eq|]. split.
  - intros other Hne. by apply Map_get_set_ne.
  - apply Map_set_well_keyed.
Qed.

Lemma string_append_assoc (a b c : string) : (a ++ b) ++ c = a ++ b ++ c.
Proof.
  induction a as [|x a IH]; [done|].
  change (String x ((a ++ b) ++ c) = String x (a ++ b ++ c)). by rewrite IH.
Qed.

Lemma getStreamIdFromEventId_cut a b :
  underscore_free a → getStreamIdFromEventId (a ++ "_" ++ b) = a.
Proof.
  induction a as [|c a IH]; intros Hfree; [done|].
  change (getStreamIdFromEventId (String c (a ++ "_" ++ b)) = String c a).
  cbn -[is_char String.append].
  rewrite (Hfree c) by (cbn; left). rewrite IH; [done|].
  intros c' Hc'. apply Hfree. cbn. by right.
Qed.

(** X21.  The stream id read back from a generated event id is the
    stream id it was generated for, when that has no underscore; for a
    stream id with an underscore it is only the part before the first
    underscore. *)
Theorem getStreamIdFromEventId_generateEventId streamId now random :
  (underscore_free streamId →
   getStreamIdFromEventId (generateEventId streamId now random) = streamId)
  ∧ (∀ a b, underscore_free a → streamId = a ++ "_" ++ b →
            getStreamIdFromEventId (generateEventId streamId now random) = a).
Proof.
  unfold generateEventId. split.
  - intros Hfree. by apply getStreamIdFromEventId_cut.
  - intros a b Hfree ->.
    replace ((a ++ "_" ++ b) ++ "_" ++ pretty now ++ "_" ++ random)
      with (a ++ "_" ++ (b ++ "_" ++ pretty now ++ "_" ++ random)).
    + by apply getStreamIdFromEventId_cut.
    + by rewrite string_append_assoc.
Qed.

Lemma sort_insert_Permutation compare x l : sort_insert compare x l ≡ₚ x :: l.
Proof.
  induction l as [|y l IH]; cbn; [done|].
  destruct (0 <? compare x.1 y.1)%Z; [|done].
  rewrite IH. apply Permutation_swap.
Qed.

Lemma Array_sort_Permutation compare l : Array_sort compare l ≡ₚ l.
Proof.
  unfold Array_sort. induction l as [|x l IH]; cbn; [done|].
  by rewrite sort_insert_Permutation, IH.
Qed.

Lemma replay_loop_sent streamId lastEventId found l id message :
  (id, message) ∈ replay_loop streamId lastEventId found l →
  id ≠ lastEventId
  ∧ ∃ event, (id, event) ∈ l ∧ event_message event = message
             ∧ event_streamId event = streamId.
Proof.
  revert found. induction l as [|[k ev] l IH]; intros found; cbn.
  - by intros ?%elem_of_nil.
  - destruct (bool_decide (event_streamId ev = streamId)) eqn:Hs; cbn.
    + apply bool_decide_eq_true in Hs.
      destruct (bool_decide (k = lastEventId)) eqn:Hk.
      * intros (Hne & e & He & Hm)%IH. split; [done|]. exists e. split; [by right|done].
      * apply bool_decide_eq_false in Hk. destruct found.
        -- intros [[= -> ->]|(Hne & e & He & Hm)%IH]%elem_of_cons.
           ++ split; [done|]. exists ev. split; [left|done].
           ++ split; [done|]. exists e. split; [by right|done].
        -- intros (Hne & e & He & Hm)%IH. split; [done|]. exists e.
           split; [by right|done].
    + intros (Hne & e & He & Hm)%IH. split; [done|]. exists e. split; [by right|done].
Qed.

Lemma replay_loop_not_found streamId lastEventId l :
  (∀ event, (lastEventId, event) ∈ l → event_streamId event ≠ streamId) →
  replay_loop streamId lastEventId false l = [].
Proof.
  induction l as [|[k ev] l IH]; intros Hnone; cbn; [done|].
  assert (Hrest : replay_loop streamId lastEventId false l = []).
  { apply IH. intros e He. apply Hnone. by right. }
  destruct (bool_decide (event_streamId ev = streamId)) eqn:Hs; cbn; [|done].
  apply bool_decide_eq_true in Hs.
  destruct (bool_decide (k = lastEventId)) eqn:Hk; [|done].
  apply bool_decide_eq_true in Hk. subst k.
  by destruct (Hnone ev); [left|].
Qed.

Lemma Map_get_elem_of k v m : well_keyed m → (k, v) ∈ m → Map_get k m = Some v.
Proof.
  unfold well_keyed, Map_get. induction m as [|[k' v'] m IH]; cbn.
  - by intros _ ?%elem_of_nil.
  - intros [Hk Hnd]%NoDup_cons [[= -> ->]|Hin]%elem_of_cons.
    + by rewrite bool_decide_eq_true_2.
    + rewrite bool_decide_eq_false_2; [by apply IH|].
      intros ->. apply Hk. by apply (list_elem_of_fmap_2 fst _ (k, v)).
Qed.

Lemma Map_get_Some_elem_of k v m : Map_get k m = Some v → (k, v) ∈ m.
Proof.
  unfold Map_get. induction m as [|[k' v'] m IH]; cbn; [done|].
  destruct (bool_decide (k' = k)) eqn:Hk; cbn.
  - apply bool_decide_eq_true in Hk. intros [= ->]. subst. left.
  - intros ?%IH. by right.
Qed.

(** X22.  A replay hands out nothing for an id that is empty or not in
    the store, and returns the empty stream id.  Whatever it hands out is
    an event of the store, with the message stored, that belongs to the
    stream named by the part of the given id before its first
    underscore, and is not the event of the given id itself. *)
Theorem replayEventsAfter_sends_only compare events lastEventId :
  (lastEventId = "" ∨ Map_has lastEventId events = false →
   replayEventsAfter compare events lastEventId = ("", []))
  ∧ ∀ id message,
      (id, message) ∈ (replayEventsAfter compare events lastEventId).2 →
      (replayEventsAfter compare events lastEventId).1
      = getStreamIdFromEventId lastEventId
      ∧ id ≠ lastEventId
      ∧ ∃ event, (id, event) ∈ events ∧ event_message event = message
                 ∧ event_streamId event = getStreamIdFromEventId lastEventId.
Proof.
  unfold replayEventsAfter. split.
  - intros [->| ->]; [done|]. by rewrite orb_true_r.
  - intros id message.
    destruct (bool_decide (lastEventId = "") || negb (Map_has lastEventId events));
      [by intros ?%elem_of_nil|].
    destruct (bool_decide (getStreamIdFromEventId lastEventId = ""));
      [by intros ?%elem_of_nil|].
    cbn. intros (Hne & event & Hin & Hm & Hs)%replay_loop_sent.
    split; [done|]. split; [done|]. exists event. split; [|done].
    by rewrite Array_sort_Permutation in Hin.
Qed.

(** X23.  Events of a stream whose id contains an underscore cannot be
    replayed: when the event stored under the given id belongs to a
    stream other than the text before the id's first underscore, the
    replay hands out nothing. *)
Theorem replayEventsAfter_other_stream compare events lastEventId event :
  well_keyed events →
  Map_get lastEventId events = Some event →
  event_streamId event ≠ getStreamIdFromEventId lastEventId →
  (replayEventsAfter compare events lastEventId).2 = [].
Proof.
  intros Hkeys Hget Hstream. unfold replayEventsAfter.
  destruct (bool_decide (lastEventId = "") || negb (Map_has lastEventId events));
    [done|].
  destruct (bool_decide (getStreamIdFromEventId lastEventId = "")); [done|]. cbn.
  apply replay_loop_not_found. intros e He.
  rewrite Array_sort_Permutation in He.
  apply (Map_get_elem_of _ _ _ Hkeys) in He. congruence.
Qed.

Section Replay.
Context (compare : string → string → Z) (Hcompare : strict_order compare).

Let before (x y : string * StoredEvent) : Prop := (compare x.1 y.1 < 0)%Z.

Lemma sort_insert_sorted x l :
  x.1 ∉ l.*1 → StronglySorted before l →
  StronglySorted before (sort_insert compare x l).
Proof using Hcompare.
  destruct Hcompare as (Hrefl & Heq & Hflip & Htrans).
  induction l as [|y l IH]; intros Hfresh Hsorted; cbn.
  - repeat constructor.
  - apply StronglySorted_inv in Hsorted as [Hsorted Hall].
    apply not_elem_of_cons in Hfresh as [Hxy Hfresh]. cbn in Hxy.
    destruct (0 <? compare x.1 y.1)%Z eqn:Hgt.
    + apply Z.ltb_lt in Hgt. constructor; [by apply IH|].
      rewrite sort_insert_Permutation. constructor; [|done].
      unfold before. by apply Hflip.
    + apply Z.ltb_ge in Hgt.
      assert (Hlt : before x y).
      { unfold before. destruct (decide (compare x.1 y.1 = 0%Z)) as [H0|H0]; [|lia].
        by apply Heq in H0. }
      constructor; [by constructor|]. constructor; [done|].
      eapply Forall_impl; [exact Hall|]. intros z Hz. unfold before in *.
      by eapply Htrans.
Qed.

Lemma Array_sort_sorted l :
  NoDup l.*1 → StronglySorted before (Array_sort compare l).
Proof using Hcompare.
  unfold Array_sort. induction l as [|x l IH]; cbn; [constructor|].
  intros [Hx Hnd]%NoDup_cons. apply sort_insert_sorted; [|by apply IH].
  fold (Array_sort compare l). by rewrite Array_sort_Permutation.
Qed.

Lemma replay_loop_found streamId lastEventId l id message :
  (id, message) ∈ replay_loop streamId lastEventId true l
  ↔ id ≠ lastEventId
    ∧ ∃ event, (id, event) ∈ l ∧ event_message event = message
               ∧ event_streamId event = streamId.
Proof using Type.
  split; [apply replay_loop_sent|].
  induction l as [|[k ev] l IH]; cbn.
  - by intros (_ & e & ?%elem_of_nil & _).
  - intros (Hne & e & [[= -> ->]|Hin]%elem_of_cons & Hm & Hs).
    + rewrite bool_decide_eq_true_2, bool_decide_eq_false_2 by done. cbn.
      subst. left.
    + assert (Hrest : (id, message) ∈ replay_loop streamId lastEventId true l).
      { apply IH. split; [done|]. by exists e. }
      destruct (bool_decide (event_streamId ev = streamId)); cbn; [|done].
      destruct (bool_decide (k = lastEventId)); [done|]. by right.
Qed.

Lemma replay_loop_after streamId lastEventId l last id message :
  StronglySorted before l →
  (lastEventId, last) ∈ l → event_streamId last = streamId →
  (id, message) ∈ replay_loop streamId lastEventId false l
  ↔ (compare lastEventId id < 0)%Z
    ∧ ∃ event, (id, event) ∈ l ∧ event_message event = message
               ∧ event_streamId event = streamId.
Proof using Hcompare.
  destruct Hcompare as (Hrefl & Heq & Hflip & Htrans).
  intros Hsorted Hlast Hstream.
  induction l as [|[k ev] l IH]; [by apply elem_of_nil in Hlast|].
  apply StronglySorted_inv in Hsorted as [Hsorted Hall].
  rewrite Forall_forall in Hall. cbn.
  destruct (bool_decide (event_streamId ev = streamId)) eqn:Hs; cbn.
  - apply bool_decide_eq_true in Hs.
    destruct (bool_decide (k = lastEventId)) eqn:Hk.
    + apply bool_decide_eq_true in Hk. subst k.
      rewrite replay_loop_found. split.
      * intros (Hne & e & Hin & Hm & Hse). split; [apply (Hall _ Hin)|].
        exists e. split; [by right|done].
      * intros (Hlt & e & [[= -> ->]|Hin]%elem_of_cons & Hm & Hse).
        { rewrite Hrefl in Hlt. lia. }
        split; [intros ->; rewrite Hrefl in Hlt; lia|]. by exists e.
    + apply bool_decide_eq_false in Hk.
      apply elem_of_cons in Hlast as [[= ? ?]|Hlast]; [done|].
      rewrite (IH Hsorted Hlast). split.
      * intros (Hlt & e & Hin & Hm & Hse). split; [done|]. exists e.
        split; [by right|done].
      * intros (Hlt & e & [[= -> ->]|Hin]%elem_of_cons & Hm & Hse).
        { specialize (Hall _ Hlast). unfold before in Hall. cbn in Hall.
          apply Hflip in Hall. lia. }
        split; [done|]. by exists e.
  - apply bool_decide_eq_false in Hs.
    apply elem_of_cons in Hlast as [[= ? ?]|Hlast]; [congruence|].
    rewrite (IH Hsorted Hlast). split.
    + intros (Hlt & e & Hin & Hm & Hse). split; [done|]. exists e.
      split; [by right|done].
    + intros (Hlt & e & [[= -> ->]|Hin]%elem_of_cons & Hm & Hse); [done|].
      split; [done|]. by exists e.
Qed.

Lemma replay_loop_sorted streamId lastEventId found l :
  StronglySorted before l →
  StronglySorted (λ x y, (compare x.1 y.1 < 0)%Z)
    (replay_loop streamId lastEventId found l).
Proof using Type.
  revert found. induction l as [|[k ev] l IH]; intros found Hsorted; cbn;
    [constructor|].
  apply StronglySorted_inv in Hsorted as [Hsorted Hall].
  rewrite Forall_forall in Hall.
  destruct (negb _); [by apply IH|].
  destruct (bool_decide (k = lastEventId)); [by apply IH|].
  destruct found; [|by apply IH].
  constructor; [by apply IH|]. apply Forall_forall.
  intros [id message] (_ & e & Hin & _)%replay_loop_sent. apply (Hall _ Hin).
Qed.

(** X24.  For a comparator that orders the ids strictly, and a store
    whose ids are distinct: a replay after a stored event of stream [s],
    where [s] is the non-empty text before the first underscore of its
    id, returns [s] and hands out exactly the events of stream [s] whose
    id comes after the given id, in ascending order of their ids. *)
Theorem replayEventsAfter_exact events lastEventId last :
  well_keyed events →
  Map_get lastEventId events = Some last →
  event_streamId last = getStreamIdFromEventId lastEventId →
  getStreamIdFromEventId lastEventId ≠ "" →
  let replayed := replayEventsAfter compare events lastEventId in
  replayed.1 = event_streamId last
  ∧ (∀ id message,
       (id, message) ∈ replayed.2
       ↔ (compare lastEventId id < 0)%Z
         ∧ ∃ event, (id, event) ∈ events ∧ event_message event = message
                    ∧ event_streamId event = event_streamId last)
  ∧ StronglySorted (λ x y, (compare x.1 y.1 < 0)%Z) replayed.2.
Proof using Hcompare.
  intros Hkeys Hget Hstream Hnonempty replayed. subst replayed.
  unfold replayEventsAfter.
  assert (lastEventId ≠ "") as Hid by (by intros ->).
  rewrite bool_decide_eq_false_2 by done.
  unfold Map_has. rewrite Hget, bool_decide_eq_true_2 by done. cbn [negb orb].
  rewrite bool_decide_eq_false_2 by done. cbn [fst snd].
  pose proof (Array_sort_sorted events Hkeys) as Hsorted.
  split; [done|]. split; [|by apply replay_loop_sorted].
  intros id message.
  rewrite (replay_loop_after _ _ _ last); [|done| |done].
  - rewrite Hstream. split.
    + intros (Hlt & e & Hin & Hm & Hs). split; [done|]. exists e.
      split; [|done]. by rewrite Array_sort_Permutation in Hin.
    + intros (Hlt & e & Hin & Hm & Hs). split; [done|]. exists e.
      split; [|done]. by rewrite Array_sort_Permutation.
  - rewrite Array_sort_Permutation. by apply Map_get_Some_elem_of.
Qed.
End Replay.

(** ** The grading backend *)

Section Router.
Context (parseInt : string → option Z) (not_found : string).

(** The ids of a table are distinct and lie from 1 up to, not including,
    the counter. *)
Let table_ok (t : Table) : Prop :=
  NoDup (row_id <$> rows t)
  ∧ Forall (λ r, 1 ≤ row_id r < idCounter t)%Z (rows t)
  ∧ (1 ≤ idCounter t)%Z.

Lemma set_nama_at_ids n nama l : row_id <$> set_nama_at n nama l = row_id <$> l.
Proof using Type.
  induction l as [|r l IH]; cbn; [done|].
  destruct (decide (row_id r = n)); cbn; [done|by rewrite IH].
Qed.

Lemma filter_all {A} (P : A → Prop) `{∀ x, Decision (P x)} (l : list A) :
  (∀ x, x ∈ l → P x) → filter P l = l.
Proof using Type.
  induction l as [|x l IH]; intros Hall; [done|].
  rewrite filter_cons_True by (apply Hall; left).
  rewrite IH; [done|]. intros y Hy. apply Hall. by right.
Qed.

Lemma splice_at_filter n l :
  NoDup (row_id <$> l) →
  splice_at n l = filter (λ r, row_id r ≠ n) l.
Proof using Type.
  induction l as [|r l IH]; [done|]. cbn [splice_at fmap list_fmap].
  intros [Hr Hnd]%NoDup_cons.
  destruct (decide (row_id r = n)) as [<-|Hne].
  - rewrite filter_cons_False by (by intros ?).
    symmetry. apply filter_all. intros x Hx Heq. apply Hr.
    rewrite <- Heq. by apply list_elem_of_fmap_2.
  - rewrite filter_cons_True by done. by rewrite IH.
Qed.

Lemma NoDup_fmap_filter {A} (P : A → Prop) `{∀ x, Decision (P x)}
    (f : A → Z) (l : list A) :
  NoDup (f <$> l) → NoDup (f <$> filter P l).
Proof using Type.
  induction l as [|x l IH]; [done|]. cbn [fmap list_fmap].
  intros [Hx Hnd]%NoDup_cons.
  destruct (decide (P x)).
  - rewrite filter_cons_True by done. cbn. apply NoDup_cons. split; [|by apply IH].
    intros [y [Hy [_ Hin]%list_elem_of_filter]]%list_elem_of_fmap.
    apply Hx. rewrite Hy. by apply list_elem_of_fmap_2.
  - rewrite filter_cons_False by done. by apply IH.
Qed.

Lemma route_keeps_ok t r : table_ok t → table_ok (route parseInt not_found t r).1.
Proof using Type.
  unfold table_ok. intros (Hnd & Hbound & Hone).
  destruct r as [|b|id|id b|id]; cbn.
  - done.
  - split; [|split; [|lia]].
    + rewrite fmap_app. apply NoDup_app. split; [done|]. cbn.
      split; [|apply NoDup_singleton].
      intros x [r [-> Hr]]%list_elem_of_fmap Heq%list_elem_of_singleton.
      rewrite Forall_forall in Hbound. specialize (Hbound r Hr). cbn in Hbound. lia.
    + apply Forall_app. split.
      * eapply Forall_impl; [exact Hbound|]. cbn. intros; lia.
      * apply Forall_singleton. cbn. lia.
  - by destruct (find_row (parseInt id) (rows t)).
  - destruct (parseInt id) as [n|]; [|done].
    destruct (find_row (Some n) (rows t)); [|done]. cbn.
    rewrite set_nama_at_ids. split; [done|]. split; [|done].
    clear Hnd. induction (rows t) as [|r0 l IH]; cbn; [done|].
    apply Forall_cons in Hbound as [Hr Hl].
    destruct (decide (row_id r0 = n)); constructor; auto.
  - destruct (parseInt id) as [n|]; [|done].
    destruct (find_row (Some n) (rows t)); [|done]. cbn.
    rewrite splice_at_filter by done. split; [|split; [|done]].
    + by apply NoDup_fmap_filter.
    + apply Forall_forall. intros x [_ Hx]%list_elem_of_filter.
      rewrite Forall_forall in Hbound. by apply Hbound.
Qed.
Lemma route_all_from_ok t requests :
  table_ok t →
  table_ok (foldl (λ t r, (route parseInt not_found t r).1) t requests).
Proof using Type.
  revert t. induction requests as [|r rs IH]; intros t Hok; [done|].
  cbn. by apply IH, route_keeps_ok.
Qed.

Lemma route_all_ok requests : table_ok (route_all parseInt not_found requests).
Proof using Type.
  apply route_all_from_ok. unfold table_ok. cbn.
  split; [apply NoDup_nil_2|]. split; [done|lia].
Qed.

Lemma route_all_counter t requests :
  idCounter (foldl (λ t r, (route parseInt not_found t r).1) t requests)
  = (idCounter t + Z.of_nat (length (List.filter is_create requests)))%Z.
Proof using Type.
  revert t. induction requests as [|r rs IH]; intros t; cbn; [lia|].
  rewrite IH. destruct r as [|b|id|id b|id]; cbn; try lia.
  - destruct (find_row (parseInt id) (rows t)); cbn; lia.
  - destruct (parseInt id) as [n|]; [|cbn; lia].
    destruct (find_row (Some n) (rows t)); cbn; lia.
  - destruct (parseInt id) as [n|]; [|cbn; lia].
    destruct (find_row (Some n) (rows t)); cbn; lia.
Qed.

(** X25.  After any sequence of requests, the ids of the rows are
    distinct, each is at least 1 and below [idCounter], and [idCounter]
    is one more than the number of rows ever created: the id of a deleted
    row is not given out again. *)
Theorem route_all_ids requests :
  let t := route_all parseInt not_found requests in
  NoDup (row_id <$> rows t)
  ∧ Forall (λ r, 1 ≤ row_id r < idCounter t)%Z (rows t)
  ∧ idCounter t = (1 + Z.of_nat (length (List.filter is_create requests)))%Z.
Proof using Type.
  destruct (route_all_ok requests) as (Hnd & Hbound & _).
  split; [done|]. split; [done|]. unfold route_all. by rewrite route_all_counter.
Qed.

Lemma find_row_unique l r :
  NoDup (row_id <$> l) → r ∈ l → find_row (Some (row_id r)) l = Some r.
Proof using Type.
  cbn. induction l as [|x l IH]; intros Hnd Hin; [by apply elem_of_nil in Hin|].
  apply NoDup_cons in Hnd as [Hx Hnd]. cbn.
  apply elem_of_cons in Hin as [->|Hin].
  - by rewrite bool_decide_eq_true_2.
  - rewrite bool_decide_eq_false_2; [by apply IH|].
    intros Heq. apply Hx. rewrite Heq. by apply list_elem_of_fmap_2.
Qed.

Lemma find_row_absent l n :
  (∀ r, r ∈ l → n ≠ Some (row_id r)) → find_row n l = None.
Proof using Type.
  destruct n as [n|]; [|done]. cbn.
  induction l as [|x l IH]; intros Hall; [done|]. cbn.
  rewrite bool_decide_eq_false_2.
  - apply IH. intros r Hr. apply Hall. by right.
  - intros Heq. apply (Hall x); [left|by rewrite Heq].
Qed.

Lemma find_row_Some l n r : find_row n l = Some r → r ∈ l ∧ n = Some (row_id r).
Proof using Type.
  destruct n as [n|]; [|done]. cbn.
  induction l as [|x l IH]; [done|]. cbn.
  destruct (bool_decide (row_id x = n)) eqn:Hx.
  - apply bool_decide_eq_true in Hx. intros [= ->]. split; [left|by rewrite Hx].
  - intros [Hin Heq]%IH. split; [by right|done].
Qed.

(** X26.  A row created by [POST] gets the current [idCounter] as its id
    and the [nama] of the body; a [GET] of that id then returns this row,
    and the list ends with it. *)
Theorem route_create_then_read requests b id :
  let t := route_all parseInt not_found requests in
  parseInt id = Some (idCounter t) →
  let created := {| row_id := idCounter t; row_nama := body_nama b |} in
  let t' := (route parseInt not_found t (route_create b)).1 in
  (route parseInt not_found t (route_create b)).2
  = {| status := 201; body := json_row created |}
  ∧ route parseInt not_found t' (route_read id)
    = (t', {| status := 200; body := json_row created |})
  ∧ (route parseInt not_found t' route_list).2
    = {| status := 200; body := json_rows (rows t ++ [created]) |}.
Proof using Type.
  intros t Hid created t'. split; [done|]. split; [|done].
  cbn. rewrite Hid. cbn. rewrite find_skips.
  - cbn. by rewrite bool_decide_eq_true_2.
  - intros r Hr. apply bool_decide_eq_false_2.
    destruct (route_all_ok requests) as (_ & Hbound & _).
    rewrite Forall_forall in Hbound. specialize (Hbound r Hr). cbn in Hbound.
    fold t in Hbound. lia.
Qed.

(** X27.  [DELETE] removes exactly the row whose id the path parameter
    denotes and keeps the others in their order; it answers 204 if there
    was such a row and 404 otherwise; [idCounter] is unchanged, and a
    [GET] of that id afterwards answers 404. *)
Theorem route_delete_then_read requests id :
  let t := route_all parseInt not_found requests in
  let t' := (route parseInt not_found t (route_delete id)).1 in
  rows t' = filter (λ r, parseInt id ≠ Some (row_id r)) (rows t)
  ∧ idCounter t' = idCounter t
  ∧ ((∃ r, r ∈ rows t ∧ parseInt id = Some (row_id r)) →
     (route parseInt not_found t (route_delete id)).2
     = {| status := 204; body := no_body |})
  ∧ ((∀ r, r ∈ rows t → parseInt id ≠ Some (row_id r)) →
     (route parseInt not_found t (route_delete id)).2
     = {| status := 404; body := json_message not_found |})
  ∧ (route parseInt not_found t' (route_read id)).2
    = {| status := 404; body := json_message not_found |}.
Proof using Type.
  intros t t'. destruct (route_all_ok requests) as (Hnd & _). fold t in Hnd.
  assert (Hrows : rows t' = filter (λ r, parseInt id ≠ Some (row_id r)) (rows t)).
  { subst t'. cbn. destruct (parseInt id) as [n|] eqn:Hid.
    - destruct (find_row (Some n) (rows t)) as [r|] eqn:Hfind; cbn.
      + rewrite splice_at_filter by done. apply list_filter_iff.
        intros x. split; [intros Hne [= Heq]; by apply Hne|].
        intros Hx Heq. apply Hx. by rewrite Heq.
      + symmetry. apply filter_all. intros x Hx [= ->].
        rewrite find_row_unique in Hfind; done.
    - symmetry. by apply filter_all. }
  split; [done|]. split; [|split; [|split]].
  - subst t'. cbn. destruct (parseInt id) as [n|]; [|done].
    by destruct (find_row (Some n) (rows t)).
  - intros (r & Hr & Hid). cbn. by rewrite Hid, find_row_unique.
  - intros Hnone. cbn. rewrite find_row_absent by done. by destruct (parseInt id).
  - cbn. rewrite find_row_absent; [done|].
    rewrite Hrows. by intros r [Hr _]%list_elem_of_filter.
Qed.

(** X28.  [PUT] on the id of an existing row sets the [nama] of that row
    to the one of the body and answers with the row; a [GET] of the id
    then returns it.  The ids of the table and their order, the other
    rows and [idCounter] are unchanged. *)
Theorem route_update_then_read requests id b n :
  let t := route_all parseInt not_found requests in
  parseInt id = Some n → n ∈ row_id <$> rows t →
  let updated := {| row_id := n; row_nama := body_nama b |} in
  let t' := (route parseInt not_found t (route_update id b)).1 in
  (route parseInt not_found t (route_update id b)).2
  = {| status := 200; body := json_row updated |}
  ∧ route parseInt not_found t' (route_read id)
    = (t', {| status := 200; body := json_row updated |})
  ∧ row_id <$> rows t' = row_id <$> rows t
  ∧ (∀ r, r ∈ rows t → row_id r ≠ n → r ∈ rows t')
  ∧ idCounter t' = idCounter t.
Proof using Type.
  intros t Hid [r [-> Hr]]%list_elem_of_fmap updated t'.
  destruct (route_all_ok requests) as (Hnd & _). fold t in Hnd.
  assert (Ht' : t' = {| rows := set_nama_at (row_id r) (body_nama b) (rows t);
                        idCounter := idCounter t |}).
  { subst t'. cbn. by rewrite Hid, find_row_unique. }
  split; [cbn; by rewrite Hid, find_row_unique|].
  rewrite Ht'. cbn. rewrite Hid, set_nama_at_ids.
  split; [|split; [done|split; [|done]]].
  - assert (find_row (Some (row_id r)) (set_nama_at (row_id r) (body_nama b) (rows t))
            = Some updated) as ->; [|done].
    clear Ht' Hnd. cbn. induction (rows t) as [|x l IH]; [by apply elem_of_nil in Hr|].
    cbn. destruct (decide (row_id x = row_id r)) as [Heq|Hne]; cbn.
    + rewrite bool_decide_eq_true_2 by done. subst updated. by rewrite Heq.
    + rewrite bool_decide_eq_false_2 by done. apply IH.
      apply elem_of_cons in Hr as [->|Hr]; done.
  - intros x Hx Hne. clear Ht' Hnd Hr.
    induction (rows t) as [|y l IH]; [done|]. cbn.
    apply elem_of_cons in Hx as [->|Hx].
    + rewrite decide_False by done. left.
    + destruct (decide (row_id y = row_id r)); right; auto.
Qed.

(** X29.  For a path parameter that denotes the id of no row, which
    includes one that [parseInt] reads as [NaN], [GET], [PUT] and
    [DELETE] answer 404 with the router's message and leave the table as
    it is. *)
Theorem route_unknown_id t id b :
  (∀ r, r ∈ rows t → parseInt id ≠ Some (row_id r)) →
  let missing := (t, {| status := 404; body := json_message not_found |}) in
  route parseInt not_found t (route_read id) = missing
  ∧ route parseInt not_found t (route_update id b) = missing
  ∧ route parseInt not_found t (route_delete id) = missing.
Proof using Type.
  intros Hnone missing. cbn. rewrite find_row_absent by done.
  by destruct (parseInt id).
Qed.
End Router.

(** ** The further facts at concrete registrations *)

Lemma serve_after_invalid_params_witness :
  validate numbers_schema (VObj {["a" := VNum 1; "b" := VStr "2"]})
  = Issues "[invalid_type]"
  ∧ (serve conforms no_converter substring_search simple_fromUri simple_fill
       (tools_only [add_tool]) fresh_session
       [CallTool (call "add" (VObj {["a" := VNum 1; "b" := VStr "2"]}));
        CallTool (call "add" (VObj {["a" := VNum 1; "b" := VNum 2]}))]).2
    = [ToolCall (fault (McpError InvalidParams "Invalid add parameters: [invalid_type]"));
       ToolCall (call_tool conforms [add_tool] VUndefined
                   (call "add" (VObj {["a" := VNum 1; "b" := VNum 2]})))]
  ∧ run_response (call_tool conforms [add_tool] VUndefined
                    (call "add" (VObj {["a" := VNum 1; "b" := VNum 2]})))
    = Some (0%N, Returns {| content := [TextContent "3"]; isError := None |}).
Proof.
  split; [reflexivity|]. split; [|reflexivity].
  rewrite (serve_after_invalid_params conforms no_converter substring_search
             simple_fromUri simple_fill (tools_only [add_tool]) fresh_session
             (call "add" (VObj {["a" := VNum 1; "b" := VStr "2"]}))
             add_tool numbers_schema "[invalid_type]").
  - reflexivity.
  - apply list_elem_of_here.
  - apply NoDup_singleton.
  - reflexivity.
  - reflexivity.
  - reflexivity.
Defined.

Lemma call_tool_answers_within_timeout_witness :
  ∃ t reply,
    run_response (call_tool conforms [late_tool] VUndefined (call "late" VUndefined))
    = Some (t, reply)
    ∧ (t ≤ 1000)%N.
Proof.
  destruct (call_tool_answers_within_timeout conforms [late_tool] VUndefined
              (call "late" VUndefined) late_tool VUndefined 1000%N)
    as (t & reply & Hresponse & Hle & _).
  - apply list_elem_of_here.
  - apply NoDup_singleton.
  - reflexivity.
  - reflexivity.
  - reflexivity.
  - discriminate.
  - exists t, reply. split; [exact Hresponse|exact Hle].
Defined.

Lemma call_tool_normalizes_witness :
  run_response (call_tool conforms [add_tool] VUndefined
                  (call "add" (VObj {["a" := VNum 1; "b" := VNum 2]})))
  = Some (0%N, Returns {| content := [TextContent "3"]; isError := None |})
  ∧ run_response (call_tool conforms [busy_tool] VUndefined (call "busy" VUndefined))
    = Some (2010%N, Returns {| content := [TextContent "computed"];
                               isError := None |}).
Proof.
  split.
  - apply (call_tool_normalizes conforms [add_tool] VUndefined
             (call "add" (VObj {["a" := VNum 1; "b" := VNum 2]})) add_tool
             (VObj {["a" := VNum 1; "b" := VNum 2]}) 0%N (RetString "3")).
    + apply list_elem_of_here.
    + apply NoDup_singleton.
    + reflexivity.
    + reflexivity.
    + reflexivity.
    + intros ms Hms. discriminate Hms.
  - apply (call_tool_normalizes conforms [busy_tool] VUndefined
             (call "busy" VUndefined) busy_tool VUndefined 2010%N
             (RetString "computed")).
    + apply list_elem_of_here.
    + apply NoDup_singleton.
    + reflexivity.
    + reflexivity.
    + reflexivity.
    + intros ms Hms _. injection Hms as <-. right. split; reflexivity.
Defined.

Lemma call_tool_forwards_progress_witness :
  progress_notifications
    (run_notifications
       (call_tool conforms [progress_tool] VUndefined
          {| req_name := "progress"; req_arguments := VUndefined;
             req_progressToken := VNum 7 |}))
  = [(0%N, {| progress := 0; total := Some 10%Z |}, VNum 7);
     (10%N, {| progress := 10; total := Some 10%Z |}, VNum 7)].
Proof.
  apply (call_tool_forwards_progress conforms [progress_tool] VUndefined
           {| req_name := "progress"; req_arguments := VUndefined;
              req_progressToken := VNum 7 |} progress_tool VUndefined).
  - apply list_elem_of_here.
  - apply NoDup_singleton.
  - reflexivity.
  - reflexivity.
Defined.

Lemma complete_prompt_argument_completer_witness :
  complete (session_prompts substring_search (prompts_only [completed_prompt]))
    (session_resourceTemplates (prompts_only [completed_prompt]))
    {| complete_ref := ref_prompt "countryPoem";
       complete_argument_name := "name"; complete_argument_value := "Germ" |}
  = Returns {| hasMore := None; completion_total := None; values := ["Germany"] |}.
Proof.
  apply (complete_prompt_argument_completer substring_search
           (prompts_only [completed_prompt])
           {| complete_ref := ref_prompt "countryPoem";
              complete_argument_name := "name"; complete_argument_value := "Germ" |}
           "countryPoem" completed_prompt country_argument country_completer).
  - reflexivity.
  - apply list_elem_of_here.
  - apply NoDup_singleton.
  - reflexivity.
  - apply list_elem_of_here.
  - apply NoDup_singleton.
  - reflexivity.
  - reflexivity.
Defined.


Lemma get_prompt_names_first_missing_witness :
  get_prompt [git_commit_prompt]
    {| get_name := "git-commit"; get_arguments := None |}
  = Throws (McpError InvalidRequest "Missing required argument: changes").
Proof.
  apply (get_prompt_names_first_missing [git_commit_prompt]
           {| get_name := "git-commit"; get_arguments := None |}
           git_commit_prompt [] changes_argument []).
  - apply list_elem_of_here.
  - apply NoDup_singleton.
  - reflexivity.
  - reflexivity.
  - intros a Ha. by apply elem_of_nil in Ha.
  - reflexivity.
  - intros H. exact H.
Defined.



Lemma prompt_registered_later_witness :
  (handle_live conforms no_converter substring_search simple_fromUri simple_fill
     (prompts_only [git_commit_prompt])
     (prompts_only [git_commit_prompt; completed_prompt]) fresh_session
     (GetPrompt {| get_name := "countryPoem";
                   get_arguments := Some {["name" := "Peru"]} |})).2
  = PromptResult
      (Returns {| result_description := Some "Writes a poem about a country";
                  result_messages :=
                    [{| message_content := TextContent "Hello, Peru!";
                        message_role := user |}] |})
  ∧ (handle_live conforms no_converter substring_search simple_fromUri simple_fill
       (prompts_only [git_commit_prompt])
       (prompts_only [git_commit_prompt; completed_prompt]) fresh_session
       (Complete {| complete_ref := ref_prompt "countryPoem";
                    complete_argument_name := "name";
                    complete_argument_value := "Germ" |})).2
    = CompletionResult (Throws (UnexpectedStateError "Unknown prompt")).
Proof.
  destruct (prompt_registered_later conforms no_converter substring_search
              simple_fromUri simple_fill
              (prompts_only [git_commit_prompt])
              (prompts_only [git_commit_prompt; completed_prompt]) fresh_session
              [completed_prompt] completed_prompt
              {| get_name := "countryPoem";
                 get_arguments := Some {["name" := "Peru"]} |}
              {| complete_ref := ref_prompt "countryPoem";
                 complete_argument_name := "name";
                 complete_argument_value := "Germ" |}) as [Hget Hcomplete].
  - reflexivity.
  - cbn. apply NoDup_cons. split; [|apply NoDup_singleton].
    intros H. apply list_elem_of_singleton in H. discriminate H.
  - apply list_elem_of_here.
  - reflexivity.
  - reflexivity.
  - split; [|exact Hcomplete]. rewrite Hget. reflexivity.
Defined.

Lemma connect_with_capabilities_witness :
  ∃ s' rest,
    connect slow_peer fresh_session sse_transport
    = (connected s',
       server_connect
         :: concat (replicate 2 [getClientCapabilities; delay 100])
         ++ [getClientCapabilities] ++ rest)
    ∧ clientCapabilities s' = Some roots_capabilities
    ∧ transport s' = Some sse_transport
    ∧ attempts rest = 0
    ∧ ∀ m, console_warn m ∉ rest.
Proof.
  apply (connect_with_capabilities slow_peer fresh_session sse_transport 2
           roots_capabilities).
  - reflexivity.
  - reflexivity.
  - lia.
  - intros n Hn. cbn. destruct (decide (n < 2)); [reflexivity|lia].
  - reflexivity.
Defined.

Lemma connect_twice_witness :
  connect ready_peer
    (with_transport fresh_session sse_transport) {| transport_type := None |}
  = (connect_throws (UnexpectedStateError "Server is already connected"), [])
  ∧ ∃ s' effects,
      connect silent_peer fresh_session sse_transport = (connected s', effects)
      ∧ connect ready_peer s' {| transport_type := None |}
        = (connect_throws (UnexpectedStateError "Server is already connected"), []).
Proof.
  split; [reflexivity|].
  exists (with_transport fresh_session sse_transport),
         (server_connect
            :: concat (replicate 10 [getClientCapabilities; delay 100])
            ++ [console_warn "[FastMCP warning] could not infer client capabilities"]).
  split; [reflexivity|].
  apply (connect_twice silent_peer fresh_session sse_transport
           (with_transport fresh_session sse_transport)
           (server_connect
              :: concat (replicate 10 [getClientCapabilities; delay 100])
              ++ [console_warn "[FastMCP warning] could not infer client capabilities"])).
  reflexivity.
Defined.

Lemma connect_roots_witness :
  (∃ s' effects,
     connect slow_peer fresh_session sse_transport = (connected s', effects)
     ∧ roots s' = [])
  ∧ ∃ s' effects,
      connect ready_peer fresh_session sse_transport = (connected s', effects)
      ∧ roots s' = [{| root_uri := "file:///home"; root_name := None |}].
Proof.
  split.
  - destruct (connect_roots slow_peer fresh_session sse_transport)
      as (s' & effects & Hconnect & Hfault & _).
    + reflexivity.
    + reflexivity.
    + exists s', effects. split; [exact Hconnect|].
      apply (Hfault (McpError MethodNotFound "Method not found")). reflexivity.
  - destruct (connect_roots ready_peer fresh_session sse_transport)
      as (s' & effects & Hconnect & _ & Hlisted & _).
    + reflexivity.
    + reflexivity.
    + exists s', effects. split; [exact Hconnect|].
      apply (Hlisted 0 roots_capabilities).
      * lia.
      * intros n Hn. lia.
      * reflexivity.
      * reflexivity.
      * reflexivity.
      * reflexivity.
Defined.

Lemma connect_default_ping_witness :
  ∃ s' effects,
    connect ready_peer fresh_session sse_transport = (connected s', effects)
    ∧ pingInterval s' = Some (5000%N, debug) ∧ setInterval 5000 ∈ effects.
Proof.
  apply (connect_default_ping ready_peer fresh_session sse_transport
           roots_capabilities).
  - reflexivity.
  - reflexivity.
  - reflexivity.
  - reflexivity.
Defined.

Lemma three_events_ids :
  three_events.*1 = ["s_1_aaaaaaaa"; "s_2_bbbbbbbb"; "a_b_3_cccccccc"].
Proof. reflexivity. Qed.

Lemma replayEventsAfter_other_stream_witness :
  Map_get "a_b_3_cccccccc" three_events
  = Some {| event_message := VStr "other"; event_streamId := "a_b" |}
  ∧ getStreamIdFromEventId "a_b_3_cccccccc" = "a"
  ∧ (replayEventsAfter code_compare
       (storeEvent three_events "a_b" (VStr "later") 4%N "dddddddd").2
       "a_b_3_cccccccc").2 = [].
Proof.
  split; [reflexivity|]. split; [reflexivity|].
  apply (replayEventsAfter_other_stream code_compare
           (storeEvent three_events "a_b" (VStr "later") 4%N "dddddddd").2
           "a_b_3_cccccccc"
           {| event_message := VStr "other"; event_streamId := "a_b" |}).
  - unfold well_keyed. apply (bool_decide_unpack _). vm_compute. exact I.
  - reflexivity.
  - discriminate.
Defined.

Lemma code_compare_strict : strict_order code_compare.
Proof.
  repeat split.
  - intros a. induction a as [|x a IH]; cbn; [done|]. by rewrite Nat.compare_refl.
  - intros a. induction a as [|x a IH]; intros [|y b]; cbn; try done.
    destruct (Nat.compare_spec (Ascii.nat_of_ascii x) (Ascii.nat_of_ascii y))
      as [Heq| |]; try done.
    intros Hab. rewrite (IH b Hab). f_equal.
    rewrite <- (Ascii.ascii_nat_embedding x), <- (Ascii.ascii_nat_embedding y).
    by rewrite Heq.
  - revert b. induction a as [|x a IH]; intros [|y b]; cbn; try lia.
    rewrite (Nat.compare_antisym (Ascii.nat_of_ascii x) (Ascii.nat_of_ascii y)).
    destruct (Ascii.nat_of_ascii x ?= Ascii.nat_of_ascii y)%nat; cbn; try lia.
    apply IH.
  - revert b. induction a as [|x a IH]; intros [|y b]; cbn; try lia.
    rewrite (Nat.compare_antisym (Ascii.nat_of_ascii x) (Ascii.nat_of_ascii y)).
    destruct (Ascii.nat_of_ascii x ?= Ascii.nat_of_ascii y)%nat; cbn; try lia.
    apply IH.
  - intros a. induction a as [|x a IH]; intros [|y b] [|z c]; cbn; try lia.
    destruct (Nat.compare_spec (Ascii.nat_of_ascii x) (Ascii.nat_of_ascii y))
      as [Hxy|Hxy|Hxy];
      destruct (Nat.compare_spec (Ascii.nat_of_ascii y) (Ascii.nat_of_ascii z))
        as [Hyz|Hyz|Hyz]; try lia.
    + rewrite Hxy, Hyz, Nat.compare_refl. apply IH.
    + intros _ _. rewrite Hxy. apply Nat.compare_lt_iff in Hyz. by rewrite Hyz.
    + intros _ _. rewrite <- Hyz. apply Nat.compare_lt_iff in Hxy. by rewrite Hxy.
    + intros _ _.
      assert (Ascii.nat_of_ascii x < Ascii.nat_of_ascii z) as Hxz by lia.
      apply Nat.compare_lt_iff in Hxz. by rewrite Hxz.
Qed.

Lemma replayEventsAfter_exact_witness :
  replayEventsAfter code_compare three_events "s_1_aaaaaaaa"
  = ("s", [("s_2_bbbbbbbb", VStr "second")])
  ∧ ∀ id message,
      (id, message) ∈ (replayEventsAfter code_compare three_events "s_1_aaaaaaaa").2
      → (code_compare "s_1_aaaaaaaa" id < 0)%Z.
Proof.
  split; [reflexivity|].
  destruct (replayEventsAfter_exact code_compare code_compare_strict three_events
              "s_1_aaaaaaaa"
              {| event_message := VStr "first"; event_streamId := "s" |})
    as (_ & Hsent & _).
  - unfold well_keyed. apply (bool_decide_unpack _). vm_compute. exact I.
  - reflexivity.
  - reflexivity.
  - discriminate.
  - intros id message Hin. apply Hsent in Hin as [Hlt _]. exact Hlt.
Defined.

Lemma route_create_then_read_witness :
  route digits_only "Mata pelajaran tidak ditemukan"
    (route digits_only "Mata pelajaran tidak ditemukan" empty_table
       (route_create {["nama" := VStr "Matematika"]})).1
    (route_read "1")
  = ({| rows := [{| row_id := 1; row_nama := VStr "Matematika" |}]; idCounter := 2 |},
     {| status := 200;
        body := json_row {| row_id := 1; row_nama := VStr "Matematika" |} |}).
Proof.
  destruct (route_create_then_read digits_only "Mata pelajaran tidak ditemukan"
              [] {["nama" := VStr "Matematika"]} "1") as (_ & Hread & _).
  - reflexivity.
  - exact Hread.
Defined.

Lemma route_update_then_read_witness :
  (route digits_only "Siswa tidak ditemukan"
     (route_all digits_only "Siswa tidak ditemukan"
        [route_create {["nama" := VStr "Ani"]}; route_create {["nama" := VStr "Budi"]}])
     (route_update "2" {["nama" := VStr "Budiman"]})).2
  = {| status := 200; body := json_row {| row_id := 2; row_nama := VStr "Budiman" |} |}.
Proof.
  destruct (route_update_then_read digits_only "Siswa tidak ditemukan"
              [route_create {["nama" := VStr "Ani"]};
               route_create {["nama" := VStr "Budi"]}]
              "2" {["nama" := VStr "Budiman"]} 2%Z) as (Hput & _).
  - reflexivity.
  - apply list_elem_of_further, list_elem_of_here.
  - exact Hput.
Defined.

Lemma route_unknown_id_witness :
  route digits_only "Siswa tidak ditemukan"
    {| rows := [{| row_id := 1; row_nama := VStr "Ani" |}]; idCounter := 2 |}
    (route_delete "abc")
  = ({| rows := [{| row_id := 1; row_nama := VStr "Ani" |}]; idCounter := 2 |},
     {| status := 404; body := json_message "Siswa tidak ditemukan" |}).
Proof.
  destruct (route_unknown_id digits_only "Siswa tidak ditemukan"
              {| rows := [{| row_id := 1; row_nama := VStr "Ani" |}]; idCounter := 2 |}
              "abc" ∅) as (_ & _ & Hdelete).
  - intros r Hr. discriminate.
  - exact Hdelete.
Defined.

(** ** Grades *)

Lemma findIndex_Some n l idx :
  findIndex n l = Some idx →
  ∃ p, l !! idx = Some p ∧ has_id n p = true
       ∧ ∀ j q, j < idx → l !! j = Some q → has_id n q = false.
Proof.
  revert idx. induction l as [|p l IH]; intros idx; cbn; [done|].
  destruct (has_id n p) eqn:Hp.
  - intros [= <-]. exists p. split; [done|]. split; [done|]. intros; lia.
  - destruct (findIndex n l) as [i|]; [|done]. cbn. intros [= <-].
    destruct (IH i eq_refl) as (q & Hq & Hid & Hbefore).
    exists q. split; [done|]. split; [done|].
    intros [|j] r Hj; cbn; [by intros [= <-]|].
    apply Hbefore. lia.
Qed.

Lemma findIndex_None n l :
  findIndex n l = None → ∀ p, p ∈ l → has_id n p = false.
Proof.
  induction l as [|q l IH]; cbn; intros Hnone p Hp;
    [by apply elem_of_nil in Hp|].
  destruct (has_id n q) eqn:Hq; [done|].
  apply elem_of_cons in Hp as [->|Hp]; [done|].
  apply IH; [|done]. by destruct (findIndex n l).
Qed.

(** X30.  [PUT /penilaian/:id] on the id of a stored grade merges the
    body into it: every property of the body replaces the stored one,
    the [id] included, and the properties that the body lacks stay as
    they were.  The grade keeps its place in the list, the other grades
    and the counter are unchanged, and the answer is the merged grade. *)
Theorem grade_route_update_merges parseInt t id b n :
  parseInt id = Some n →
  (∃ p, p ∈ penilaian t ∧ p !! "id" = Some (VNum n)) →
  ∃ idx old,
    penilaian t !! idx = Some old
    ∧ old !! "id" = Some (VNum n)
    ∧ grade_route parseInt t (route_update id b)
      = ({| penilaian := <[idx := spread old b]> (penilaian t);
            grade_idCounter := grade_idCounter t |},
         (200%N, grade (spread old b)))
    ∧ (∀ k v, b !! k = Some v → spread old b !! k = Some v)
    ∧ (∀ k, b !! k = None → spread old b !! k = old !! k)
    ∧ length (<[idx := spread old b]> (penilaian t)) = length (penilaian t)
    ∧ ∀ j, j ≠ idx → <[idx := spread old b]> (penilaian t) !! j = penilaian t !! j.
Proof.
  intros Hid (p & Hp & Hpid). cbn. rewrite Hid.
  destruct (findIndex (Some n) (penilaian t)) as [idx|] eqn:Hidx.
  - destruct (findIndex_Some _ _ _ Hidx) as (old & Hold & Hhas & _).
    exists idx, old. rewrite Hold. cbn. unfold spread.
    split; [done|]. split.
    { unfold has_id in Hhas. destruct (old !! "id") as [[]|]; try done.
      by apply bool_decide_eq_true in Hhas as ->. }
    split; [done|]. split; [by intros k v ?; apply lookup_union_Some_l|].
    split; [by intros k ?; apply lookup_union_r|].
    split; [apply length_insert|]. intros j Hj. by apply list_lookup_insert_ne.
  - pose proof (findIndex_None _ _ Hidx p Hp) as Hno.
    unfold has_id in Hno. rewrite Hpid in Hno.
    by rewrite bool_decide_eq_true_2 in Hno.
Qed.

Lemma grade_route_update_merges_witness :
  grade_route digits_only
    (grade_route digits_only {| penilaian := []; grade_idCounter := 1 |}
       (route_create {["siswaId" := VNum 7; "mapelId" := VNum 3; "nilai" := VNum 80]})).1
    (route_update "1" {["nilai" := VNum 90]})
  = ({| penilaian :=
          [{["id" := VNum 1; "siswaId" := VNum 7; "mapelId" := VNum 3;
             "nilai" := VNum 90]}];
        grade_idCounter := 2 |},
     (200%N, grade {["id" := VNum 1; "siswaId" := VNum 7; "mapelId" := VNum 3;
                     "nilai" := VNum 90]})).
Proof.
  destruct (grade_route_update_merges digits_only
              (grade_route digits_only {| penilaian := []; grade_idCounter := 1 |}
                 (route_create
                    {["siswaId" := VNum 7; "mapelId" := VNum 3; "nilai" := VNum 80]})).1
              "1" {["nilai" := VNum 90]} 1%Z)
    as (idx & old & Hold & _ & Hput & _).
  - reflexivity.
  - eexists. split; [apply list_elem_of_here|reflexivity].
  - rewrite Hput. destruct idx as [|idx]; [|discriminate Hold].
    injection Hold as <-. reflexivity.
Defined.
